(** * Multilayer perceptron from scratch: a shallow embedding

    The notebook builds a two-hidden-layer perceptron out of NDArray
    operations, trains it with a hand-written SGD step and evaluates it
    with a module-level accuracy metric.  The embedding has three layers:

    - the arithmetic of the tensor engine, an interface [Scalar] that the
      notebook's code is generic in, with two instances: [R] reads every
      operation as the exact real one, [xreal] adds the infinities, NaN
      and the overflow and underflow of the exponential;
    - the NDArray operations the notebook calls ([nd_dot], [nd_maximum],
      [nd_exp], ...) on vectors and matrices (a list of rows);
    - the notebook's own functions ([relu], [softmax], [net],
      [cross_entropy], [SGD], [evaluate_accuracy], the training loop),
      translated cell by cell. *)

From Stdlib Require Import Reals Lra Lia QArith Qreals.
From stdpp Require Import base option list gmap strings.

Close Scope Q_scope.

(** ** Scalars of the tensor engine *)

(** The operations on single entries that the notebook reaches through
    NDArray and numpy calls.  [lit] reads a Python float literal. *)
Class Scalar (num : Type) := {
  lit : Q → num;
  fadd : num → num → num;
  fsub : num → num → num;
  fmul : num → num → num;
  fdiv : num → num → num;
  fneg : num → num;
  fexp : num → num;
  flog : num → num;
  fmax : num → num → num;
  fgtb : num → num → bool;
}.

Definition zero {num : Type} `{!Scalar num} : num := lit (0 # 1).
Definition one {num : Type} `{!Scalar num} : num := lit (1 # 1).

(** Exact real arithmetic: what the operations compute when nothing is
    rounded, nothing overflows or underflows and no NaN arises.  [ln]
    agrees with the logarithm on positive arguments only, and a quotient by
    zero is a real number here; the statements below that go through [flog]
    or [fdiv] keep to arguments where the reading is the usual one. *)
#[export] Instance R_scalar : Scalar R := {|
  lit := Q2R;
  fadd := Rplus;
  fsub := Rminus;
  fmul := Rmult;
  fdiv := Rdiv;
  fneg := Ropp;
  fexp := exp;
  flog := ln;
  fmax := Rmax;
  fgtb := λ x y, if Rgt_dec x y then true else false;
|}.

(** The values of the engine's floating-point numbers with their special
    cases: a finite number, the two infinities, or NaN.  The operations
    below follow IEEE 754 on the special cases; a finite result of [+], [-],
    [*] or [/] is not rounded, and zero has no sign (a positive number over
    zero is [+inf]).  The exponential is [+inf] above 89 and 0 below -104,
    where the single-precision exponential has overflowed (from about 88.73
    on) and underflowed to 0 (from about -103.98 on); in between it keeps
    the exact value.  [nd.maximum] returns NaN when an operand is NaN. *)
Inductive xreal :=
  | Fin (r : R)
  | PInf
  | NInf
  | NaN.

Definition xneg (a : xreal) : xreal :=
  match a with
  | Fin x => Fin (- x)
  | PInf => NInf
  | NInf => PInf
  | NaN => NaN
  end.

Definition xadd (a b : xreal) : xreal :=
  match a, b with
  | NaN, _ | _, NaN => NaN
  | Fin x, Fin y => Fin (x + y)
  | PInf, NInf | NInf, PInf => NaN
  | PInf, _ | _, PInf => PInf
  | NInf, _ | _, NInf => NInf
  end.

Definition xsub (a b : xreal) : xreal := xadd a (xneg b).

(** An infinity of the sign of [x], and NaN for [x = 0]. *)
Definition xsigned (x : R) (pos neg : xreal) : xreal :=
  if Rlt_dec 0 x then pos else if Rlt_dec x 0 then neg else NaN.

Definition xmul (a b : xreal) : xreal :=
  match a, b with
  | NaN, _ | _, NaN => NaN
  | Fin x, Fin y => Fin (x * y)
  | Fin x, PInf | PInf, Fin x => xsigned x PInf NInf
  | Fin x, NInf | NInf, Fin x => xsigned x NInf PInf
  | PInf, PInf | NInf, NInf => PInf
  | PInf, NInf | NInf, PInf => NInf
  end.

Definition xdiv (a b : xreal) : xreal :=
  match a, b with
  | NaN, _ | _, NaN => NaN
  | Fin x, Fin y => if Req_dec_T y 0 then xsigned x PInf NInf else Fin (x / y)
  | Fin _, (PInf | NInf) => Fin 0
  | PInf, Fin y => if Rlt_dec y 0 then NInf else PInf
  | NInf, Fin y => if Rlt_dec y 0 then PInf else NInf
  | (PInf | NInf), (PInf | NInf) => NaN
  end.

Definition xexp (a : xreal) : xreal :=
  match a with
  | NaN => NaN
  | PInf => PInf
  | NInf => Fin 0
  | Fin x =>
      if Rlt_dec 89 x then PInf
      else if Rlt_dec x (-104) then Fin 0
      else Fin (exp x)
  end.

Definition xlog (a : xreal) : xreal :=
  match a with
  | NaN | NInf => NaN
  | PInf => PInf
  | Fin x => if Rlt_dec 0 x then Fin (ln x) else if Rlt_dec x 0 then NaN else NInf
  end.

Definition xmax (a b : xreal) : xreal :=
  match a, b with
  | NaN, _ | _, NaN => NaN
  | PInf, _ | _, PInf => PInf
  | NInf, c | c, NInf => c
  | Fin x, Fin y => Fin (Rmax x y)
  end.

(** [a > b]; false when an operand is NaN. *)
Definition xgtb (a b : xreal) : bool :=
  match a, b with
  | NaN, _ | _, NaN => false
  | _, PInf => false
  | PInf, _ => true
  | NInf, _ => false
  | Fin _, NInf => true
  | Fin x, Fin y => if Rgt_dec x y then true else false
  end.

#[export] Instance X_scalar : Scalar xreal := {|
  lit := λ q, Fin (Q2R q);
  fadd := xadd;
  fsub := xsub;
  fmul := xmul;
  fdiv := xdiv;
  fneg := xneg;
  fexp := xexp;
  flog := xlog;
  fmax := xmax;
  fgtb := xgtb;
|}.

(** A number that is not negative: not NaN, not [-inf]. *)
Definition xnonneg (a : xreal) : Prop :=
  match a with
  | Fin x => (0 <= x)%R
  | PInf => True
  | NInf | NaN => False
  end.

(** ** NDArray operations *)

Section Notebook.
Context {num : Type} `{!Scalar num}.

(** A rank-1 array is a list of entries, a rank-2 array the list of its
    rows.  The engine has no array with a dimension of size zero. *)
Definition shape1 (n : nat) (v : list num) : Prop := length v = n.
Definition shape2 (n m : nat) (X : list (list num)) : Prop :=
  length X = n ∧ Forall (λ row, length row = m) X.

Definition same_shape (X Y : list (list num)) : bool :=
  bool_decide (map length X = map length Y).

(** [nd.zeros_like(X)] *)
Definition nd_zeros_like (X : list (list num)) : list (list num) :=
  map (map (λ _, zero)) X.

(** [nd.maximum(X, Y)] on two arrays of one shape. *)
Definition nd_maximum (X Y : list (list num)) : list (list num) :=
  zip_with (zip_with fmax) X Y.

(** [nd.max(X)]: the largest entry of the whole array. *)
Definition nd_max (X : list (list num)) : num :=
  match concat X with
  | [] => zero
  | x :: xs => foldl fmax x xs
  end.

(** [X - c] for a one-entry array [c], stretched over [X]. *)
Definition nd_sub_scalar (X : list (list num)) (c : num) : list (list num) :=
  map (map (λ x, fsub x c)) X.

Definition nd_exp (X : list (list num)) : list (list num) := map (map fexp) X.
Definition nd_log (X : list (list num)) : list (list num) := map (map flog) X.

Definition vsum (v : list num) : num := foldr fadd zero v.

(** [nd.sum(X, axis=0, exclude=True)]: every axis but the first is
    summed away, one entry per row is left. *)
Definition nd_sum_rows (X : list (list num)) : list num := map vsum X.

(** [v.reshape((-1,1))]: a rank-1 array as a column. *)
Definition reshape_col (v : list num) : list (list num) := map (λ p, [p]) v.

(** [X / P]: a row of [P] with a single entry is stretched along the
    row of [X] it divides. *)
Definition nd_div (X P : list (list num)) : list (list num) :=
  zip_with (λ row prow,
    match prow with
    | [p] => map (λ e, fdiv e p) row
    | _ => zip_with fdiv row prow
    end) X P.

(** [X * Y], entry by entry, for operands of one shape.  [None] stands
    for operands of different shapes, which the embedding does not cover:
    the engine raises on them unless it can stretch one over the other. *)
Definition nd_mul (X Y : list (list num)) : option (list (list num)) :=
  if same_shape X Y then Some (zip_with (zip_with fmul) X Y) else None.

Definition ncols (W : list (list num)) : nat :=
  match W with
  | [] => 0
  | row :: _ => length row
  end.

Definition column (j : nat) (W : list (list num)) : list num :=
  map (λ row, nth j row zero) W.

Definition dotp (u v : list num) : num := vsum (zip_with fmul u v).

Definition matmul (X W : list (list num)) : list (list num) :=
  map (λ x, map (λ j, dotp x (column j W)) (seq 0 (ncols W))) X.

(** [nd.dot(X, W)]: the rows of [X] must be as long as [W] has rows. *)
Definition nd_dot (X W : list (list num)) : option (list (list num)) :=
  if forallb (λ x, length x =? length W) X then Some (matmul X W) else None.

Definition add_bias (X : list (list num)) (b : list num) : list (list num) :=
  map (λ x, zip_with fadd x b) X.

(** [X + b] for a rank-2 [X] and a rank-1 [b], which is added to every
    row; the rows must be as long as [b].  [None] stands for every other
    case: the engine raises, except on a [b] of one entry, which it
    stretches and which the embedding does not cover. *)
Definition nd_add (X : list (list num)) (b : list num) : option (list (list num)) :=
  if forallb (λ x, length x =? length b) X then Some (add_bias X b) else None.

(** ** The notebook's functions *)

Definition relu (X : list (list num)) : list (list num) :=
  nd_maximum X (nd_zeros_like X).

Definition softmax (y_linear : list (list num)) : list (list num) :=
  let exp := nd_exp (nd_sub_scalar y_linear (nd_max y_linear)) in
  let partition := reshape_col (nd_sum_rows exp) in
  nd_div exp partition.

(** The six globals [W1, b1, W2, b2, W3, b3] that [net] reads. *)
Record Params := mkParams {
  W1 : list (list num); b1 : list num;
  W2 : list (list num); b2 : list num;
  W3 : list (list num); b3 : list num;
}.

Definition net (ps : Params) (X : list (list num)) : option (list (list num)) :=
  d1 ← nd_dot X (W1 ps);
  h1_linear ← nd_add d1 (b1 ps);
  let h1 := relu h1_linear in
  d2 ← nd_dot h1 (W2 ps);
  h2_linear ← nd_add d2 (b2 ps);
  let h2 := relu h2_linear in
  d3 ← nd_dot h2 (W3 ps);
  yhat_linear ← nd_add d3 (b3 ps);
  let yhat := softmax yhat_linear in
  Some yhat.

Definition cross_entropy (yhat y : list (list num)) : option (list num) :=
  prod ← nd_mul y (nd_log yhat);
  Some (map fneg (nd_sum_rows prod)).

(** The composition that [net] is meant to compute, with the products and
    sums taken at matching shapes. *)
Definition affine (X W : list (list num)) (b : list num) : list (list num) :=
  add_bias (matmul X W) b.

Definition net_formula (ps : Params) (X : list (list num)) : list (list num) :=
  softmax
    (affine (relu (affine (relu (affine X (W1 ps) (b1 ps))) (W2 ps) (b2 ps)))
       (W3 ps) (b3 ps)).

(** ** Arrays as objects: the store *)

(** An array of rank one or two, as the parameters have. *)
Inductive tensor :=
  | Vec (v : list num)
  | Mat (X : list (list num)).

Definition tensor_has_shape (sh : list nat) (t : tensor) : Prop :=
  match t, sh with
  | Vec v, [n] => shape1 n v
  | Mat X, [n; m] => shape2 n m X
  | _, _ => False
  end.

Definition tensor_same_shape (t u : tensor) : bool :=
  match t, u with
  | Vec v, Vec w => bool_decide (length v = length w)
  | Mat X, Mat Y => same_shape X Y
  | _, _ => false
  end.

(** [c * t] for a Python float [c]. *)
Definition tensor_scale (c : num) (t : tensor) : tensor :=
  match t with
  | Vec v => Vec (map (fmul c) v)
  | Mat X => Mat (map (map (fmul c)) X)
  end.

Definition tensor_minus (t u : tensor) : tensor :=
  match t, u with
  | Vec v, Vec w => Vec (zip_with fsub v w)
  | Mat X, Mat Y => Mat (zip_with (zip_with fsub) X Y)
  | _, _ => t
  end.

(** [t - u], entry by entry, refused when the shapes differ. *)
Definition tensor_sub (t u : tensor) : option tensor :=
  if tensor_same_shape t u then Some (tensor_minus t u) else None.

Definition tensor_zeros_like (t : tensor) : tensor :=
  match t with
  | Vec v => Vec (map (λ _, zero) v)
  | Mat X => Mat (nd_zeros_like X)
  end.

(** An NDArray object: its buffer and, once [attach_grad] was called on
    it, the reference of its gradient buffer, an object of its own. *)
Record NDArray := mkND {
  data : tensor;
  grad : option positive;
}.

(** [param.attach_grad()]: a fresh zero array of the same shape becomes the
    gradient buffer of [param]. *)
Definition attach_grad (param : positive) (h : gmap positive NDArray)
    : option (gmap positive NDArray) :=
  p ← h !! param;
  let g := fresh (dom h) in
  Some (<[param := mkND (data p) (Some g)]>
          (<[g := mkND (tensor_zeros_like (data p)) None]> h)).

(** [for param in params: param.attach_grad()] *)
Fixpoint attach_grads (params : list positive) (h : gmap positive NDArray)
    : option (gmap positive NDArray) :=
  match params with
  | [] => Some h
  | param :: rest => h' ← attach_grad param h; attach_grads rest h'
  end.

(** [param[:] = v]: the buffer of the object [param] is overwritten, the
    object and its gradient reference stay.  [None] stands for a [v] of
    another shape, which the embedding does not cover: the engine raises
    unless it can stretch [v] over the buffer. *)
Definition set_slice (param : positive) (v : tensor) (h : gmap positive NDArray)
    : option (gmap positive NDArray) :=
  p ← h !! param;
  if tensor_same_shape (data p) v
  then Some (<[param := mkND v (grad p)]> h)
  else None.

(** One turn of the loop of [SGD]: [param[:] = param - lr * param.grad].
    A parameter without gradient buffer has [param.grad] equal to [None],
    and the product raises. *)
Definition SGD_update (lr : num) (param : positive) (h : gmap positive NDArray)
    : option (gmap positive NDArray) :=
  p ← h !! param;
  g ← grad p;
  gbuf ← h !! g;
  v ← tensor_sub (data p) (tensor_scale lr (data gbuf));
  set_slice param v h.

Fixpoint SGD (params : list positive) (lr : num) (h : gmap positive NDArray)
    : option (gmap positive NDArray) :=
  match params with
  | [] => Some h
  | param :: rest => h' ← SGD_update lr param h; SGD rest lr h'
  end.

(** ** Data iterators and the accuracy metric *)

(** A batch of an [NDArrayIter]: the buffer of [batch.data[0]], an array of
    images read row by row, and the class indices of [batch.label[0]].
    An iterator is the list of the batches that a pass over it yields;
    [reset()] rewinds it.  The embedding takes every pass to yield the same
    batches in the same order (an engine that shuffles again on [reset()]
    yields the samples in another grouping). *)
Record Batch := mkBatch {
  batch_data : list num;
  batch_label : list nat;
}.

Fixpoint chunks (rows width : nat) (buf : list num) : list (list num) :=
  match rows with
  | 0 => []
  | S r => take width buf :: chunks r width (drop width buf)
  end.

(** [x.reshape((-1, width))]: refused unless the buffer divides into rows
    of [width] entries. *)
Definition reshape_rows (width : nat) (buf : list num) : option (list (list num)) :=
  if length buf mod width =? 0
  then Some (chunks (length buf / width) width buf)
  else None.

(** [nd.one_hot(label, depth)] *)
Definition nd_one_hot (label : list nat) (depth : nat) : list (list num) :=
  map (λ l, map (λ j, if j =? l then one else zero) (seq 0 depth)) label.

(** The state of an [mx.metric.Accuracy] object: the number of correct
    predictions and the number of predictions seen since it was created
    (the notebook never calls [reset()] on it). *)
Record Accuracy := mkAccuracy {
  sum_metric : nat;
  num_inst : nat;
}.

(** The index of the first largest entry of a row. *)
Definition argmax (row : list num) : nat :=
  match row with
  | [] => 0
  | x :: xs =>
      (foldl (λ acc y, let '(best, top, i) := acc in
                       if fgtb y top then (i, y, S i) else (best, top, S i))
         (0, x, 1) xs).1.1
  end.

Definition hits (pred_label label : list nat) : nat :=
  length (filter (λ pl, pl.1 = pl.2) (zip pred_label label)).

(** [metric.update([label], [output])]: the predicted class of a row is its
    argmax; labels and predictions must be equally many. *)
Definition metric_update (label : list nat) (output : list (list num))
    (metric : Accuracy) : option Accuracy :=
  let pred_label := map argmax output in
  if length label =? length pred_label
  then Some (mkAccuracy (sum_metric metric + hits pred_label label)
               (num_inst metric + length pred_label))
  else None.

Definition of_nat (n : nat) : num := lit (inject_Z (Z.of_nat n)).

(** [metric.get()[1]]: the ratio of the two counters, or NaN ([None]) when
    nothing was counted yet. *)
Definition metric_get (metric : Accuracy) : option num :=
  if num_inst metric =? 0 then None
  else Some (fdiv (of_nat (sum_metric metric)) (of_nat (num_inst metric))).

Fixpoint evaluate_batches (net : list (list num) → option (list (list num)))
    (batches : list Batch) (metric : Accuracy) : option Accuracy :=
  match batches with
  | [] => Some metric
  | batch :: rest =>
      data ← reshape_rows 784 (batch_data batch);
      let label := batch_label batch in
      let label_one_hot := nd_one_hot label 10 in
      output ← net data;
      metric' ← metric_update label output metric;
      evaluate_batches net rest metric'
  end.

(** [evaluate_accuracy(data_iterator, net)], with the module-level [metric]
    threaded through: it is read and updated, never reset. *)
Definition evaluate_accuracy (data_iterator : list Batch)
    (net : list (list num) → option (list (list num))) (metric : Accuracy)
    : option (option num * Accuracy) :=
  metric' ← evaluate_batches net data_iterator metric;
  Some (metric_get metric', metric').

(** ** The training loop *)

(** The objects that the global names [W1] ... [b3] are bound to. *)
Record Env := mkEnv {
  ref_W1 : positive; ref_b1 : positive;
  ref_W2 : positive; ref_b2 : positive;
  ref_W3 : positive; ref_b3 : positive;
}.

(** [params = [W1, b1, W2, b2, W3, b3]] *)
Definition params (E : Env) : list positive :=
  [ref_W1 E; ref_b1 E; ref_W2 E; ref_b2 E; ref_W3 E; ref_b3 E].

Definition read_mat (r : positive) (h : gmap positive NDArray)
    : option (list (list num)) :=
  p ← h !! r;
  match data p with
  | Mat X => Some X
  | Vec _ => None
  end.

Definition read_vec (r : positive) (h : gmap positive NDArray) : option (list num) :=
  p ← h !! r;
  match data p with
  | Vec v => Some v
  | Mat _ => None
  end.

Definition read_params (E : Env) (h : gmap positive NDArray) : option Params :=
  w1 ← read_mat (ref_W1 E) h;
  c1 ← read_vec (ref_b1 E) h;
  w2 ← read_mat (ref_W2 E) h;
  c2 ← read_vec (ref_b2 E) h;
  w3 ← read_mat (ref_W3 E) h;
  c3 ← read_vec (ref_b3 E) h;
  Some (mkParams w1 c1 w2 c2 w3 c3).

(** [net] as the notebook calls it: the globals are read from the store at
    the time of the call. *)
Definition net_in (E : Env) (h : gmap positive NDArray) (X : list (list num))
    : option (list (list num)) :=
  ps ← read_params E h;
  net ps X.

Definition grad_tensors (g : Params) : list tensor :=
  [Mat (W1 g); Vec (b1 g); Mat (W2 g); Vec (b2 g); Mat (W3 g); Vec (b3 g)].

Definition write_grad (pg : positive * tensor) (h : gmap positive NDArray)
    : option (gmap positive NDArray) :=
  p ← h !! pg.1;
  g ← grad p;
  gbuf ← h !! g;
  Some (<[g := mkND pg.2 (grad gbuf)]> h).

Fixpoint write_grads (pgs : list (positive * tensor)) (h : gmap positive NDArray)
    : option (gmap positive NDArray) :=
  match pgs with
  | [] => Some h
  | pg :: rest => h' ← write_grad pg h; write_grads rest h'
  end.

(** [loss.backward()]: the differentiation engine, which is not the
    notebook's, has computed one gradient per parameter ([grads]); each is
    written into the gradient buffer of its parameter. *)
Definition backward (E : Env) (grads : Params) (h : gmap positive NDArray)
    : option (gmap positive NDArray) :=
  write_grads (zip (params E) (grad_tensors grads)) h.

(** [np.mean(a)]: the sum of the entries over their number. *)
Definition np_mean (xs : list num) : num := fdiv (vsum xs) (of_nat (length xs)).

(** The moving average of the losses, lines "if i == 0: ... else: ...". *)
Definition moving_loss_update (i : nat) (moving_loss : num) (loss : list num)
    : option num :=
  l0 ← loss !! 0%nat;
  if i =? 0
  then Some (np_mean [l0])
  else Some (fadd (fmul (lit (99 # 100)) moving_loss)
               (fmul (lit (1 # 100)) (np_mean [l0]))).

(** The parameter update of one batch: backward pass, then [SGD]. *)
Definition update_step (E : Env) (grads : Params) (h : gmap positive NDArray)
    : option (gmap positive NDArray) :=
  h' ← backward E grads h;
  SGD (params E) (lit (1 # 100)) h'.

(** The body of the inner loop for batch number [i]. [autograd] stands
    for the differentiation engine: the gradients of the recorded loss at
    the current parameters. *)
Definition train_batch (E : Env)
    (autograd : Params → list (list num) → list (list num) → Params)
    (i : nat) (batch : Batch) (st : gmap positive NDArray * num)
    : option (gmap positive NDArray * num) :=
  data ← reshape_rows 784 (batch_data batch);
  let label := batch_label batch in
  let label_one_hot := nd_one_hot label 10 in
  ps ← read_params E st.1;
  output ← net ps data;
  loss ← cross_entropy output label_one_hot;
  h ← update_step E (autograd ps data label_one_hot) st.1;
  moving_loss ← moving_loss_update i st.2 loss;
  Some (h, moving_loss).

(** [for i, batch in enumerate(train_data)], from index [i] on. *)
Fixpoint train_batches (E : Env)
    (autograd : Params → list (list num) → list (list num) → Params)
    (i : nat) (batches : list Batch) (st : gmap positive NDArray * num)
    : option (gmap positive NDArray * num) :=
  match batches with
  | [] => Some st
  | batch :: rest =>
      st' ← train_batch E autograd i batch st;
      train_batches E autograd (S i) rest st'
  end.

(** What the cells of the notebook share: the store, [moving_loss], the
    module-level [metric] and the lines printed so far, each line holding
    the epoch, the loss, the train and the test accuracy. *)
Record State := mkState {
  store : gmap positive NDArray;
  moving_loss : num;
  metric : Accuracy;
  printed : list (nat * num * option num * option num);
}.

(** The body of the outer loop for epoch [e]. *)
Definition train_epoch (E : Env)
    (autograd : Params → list (list num) → list (list num) → Params)
    (train_data test_data : list Batch) (e : nat) (st : State) : option State :=
  hm ← train_batches E autograd 0 train_data (store st, moving_loss st);
  t1 ← evaluate_accuracy test_data (net_in E hm.1) (metric st);
  t2 ← evaluate_accuracy train_data (net_in E hm.1) t1.2;
  let test_accuracy := t1.1 in
  let train_accuracy := t2.1 in
  Some (mkState hm.1 hm.2 t2.2
          (printed st ++ [(e, hm.2, train_accuracy, test_accuracy)])).

Fixpoint run_epochs (E : Env)
    (autograd : Params → list (list num) → list (list num) → Params)
    (train_data test_data : list Batch) (es : list nat) (st : State)
    : option State :=
  match es with
  | [] => Some st
  | e :: rest =>
      st' ← train_epoch E autograd train_data test_data e st;
      run_epochs E autograd train_data test_data rest st'
  end.

(** [for e in range(epochs): ...] *)
Definition training_loop (E : Env)
    (autograd : Params → list (list num) → list (list num) → Params)
    (train_data test_data : list Batch) (epochs : nat) (st : State)
    : option State :=
  run_epochs E autograd train_data test_data (seq 0 epochs) st.

(** [epochs = 10] *)
Definition epochs : nat := 10.

(** ** Reference definitions the statements compare the code with *)

(** The normalisation without any shift: [exp(X)] over its row sums. *)
Definition normalize (X : list (list num)) : list (list num) :=
  map (λ row, map (λ x, fdiv (fexp x) (vsum (map fexp row))) row) X.

(** The shape of an array: its rank and the length of each row. *)
Definition tensor_shape (t : tensor) : bool * list nat :=
  match t with
  | Vec v => (false, [length v])
  | Mat X => (true, map length X)
  end.

(** [param] has the buffer [v] and an attached gradient buffer [g] that
    holds [gv], of the shape of [v]. *)
Definition has_grad (h : gmap positive NDArray) (param : positive)
    (v : tensor) (g : positive) (gv : tensor) : Prop :=
  ∃ gg, h !! param = Some (mkND v (Some g)) ∧ h !! g = Some (mkND gv gg)
        ∧ tensor_same_shape v gv = true.

(** The stores [h] and [h'] hold the same objects, each with the gradient
    reference and the shape it had: buffers apart, nothing has changed. *)
Definition same_objects (h h' : gmap positive NDArray) : Prop :=
  ∀ l, option_Forall2
         (λ x x', grad x' = grad x ∧ tensor_shape (data x') = tensor_shape (data x))
         (h !! l) (h' !! l).

(** The shapes of the notebook's parameters, in the order of [params]. *)
Definition param_shapes : list (list nat) :=
  [[784; 256]; [256]; [256; 128]; [128]; [128; 10]; [10]].

Definition params_shaped (ps : Params) : Prop :=
  Forall2 tensor_has_shape param_shapes (grad_tensors ps).

(** The parameter [p] of shape [sh] has the gradient buffer [g], of the
    same shape. *)
Definition attached (h : gmap positive NDArray) (p g : positive) (sh : list nat)
    : Prop :=
  ∃ v gv gg, h !! p = Some (mkND v (Some g)) ∧ tensor_has_shape sh v ∧
             h !! g = Some (mkND gv gg) ∧ tensor_has_shape sh gv.

(** The store after the parameter cells of the notebook: the six
    parameters are distinct objects of the shapes above, each with a
    gradient buffer of its own ([gs], in the order of [params]). *)
Definition wf_store (E : Env) (gs : list positive) (h : gmap positive NDArray)
    : Prop :=
  NoDup (params E ++ gs) ∧ Forall3 (attached h) (params E) gs param_shapes.

(** A batch of [k] images of 784 pixels with their [k] labels, [k > 0]. *)
Definition wf_batch (batch : Batch) : Prop :=
  ∃ k, 0 < k ∧ length (batch_data batch) = k * 784
       ∧ length (batch_label batch) = k.

Definition samples (batches : list Batch) : nat :=
  foldr (λ batch n, length (batch_label batch) + n) 0 batches.

(** The parameter update that a batch causes, and nothing else. *)
Definition batch_update (E : Env)
    (autograd : Params → list (list num) → list (list num) → Params)
    (batch : Batch) (h : gmap positive NDArray) : option (gmap positive NDArray) :=
  data ← reshape_rows 784 (batch_data batch);
  ps ← read_params E h;
  update_step E (autograd ps data (nd_one_hot (batch_label batch) 10)) h.

(** The parameter updates of a list of batches, one after the other. *)
Fixpoint apply_updates (E : Env)
    (autograd : Params → list (list num) → list (list num) → Params)
    (batches : list Batch) (h : gmap positive NDArray)
    : option (gmap positive NDArray) :=
  match batches with
  | [] => Some h
  | batch :: rest =>
      h' ← batch_update E autograd batch h;
      apply_updates E autograd rest h'
  end.

(** The loss vector of a batch at the parameters of the store. *)
Definition batch_loss (E : Env) (batch : Batch) (h : gmap positive NDArray)
    : option (list num) :=
  data ← reshape_rows 784 (batch_data batch);
  ps ← read_params E h;
  output ← net ps data;
  cross_entropy output (nd_one_hot (batch_label batch) 10).

(** The loss vectors of the batches of one pass, each computed at the
    parameters of its turn. *)
Fixpoint batch_losses (E : Env)
    (autograd : Params → list (list num) → list (list num) → Params)
    (batches : list Batch) (h : gmap positive NDArray)
    : option (list (list num)) :=
  match batches with
  | [] => Some []
  | batch :: rest =>
      loss ← batch_loss E batch h;
      h' ← batch_update E autograd batch h;
      losses ← batch_losses E autograd rest h';
      Some (loss :: losses)
  end.

(** The moving average over the loss vectors of one pass, batch [i] first. *)
Fixpoint moving_losses (i : nat) (moving_loss : num) (losses : list (list num))
    : option num :=
  match losses with
  | [] => Some moving_loss
  | loss :: rest =>
      ml ← moving_loss_update i moving_loss loss;
      moving_losses (S i) ml rest
  end.

(** The epoch that a printed line reports. *)
Definition line_epoch (line : nat * num * option num * option num) : nat :=
  line.1.1.1.

(** The loss that a printed line reports. *)
Definition line_loss (line : nat * num * option num * option num) : num :=
  line.1.1.2.

End Notebook.

Arguments Params : clear implicits.
Arguments tensor : clear implicits.
Arguments NDArray : clear implicits.
Arguments Batch : clear implicits.
Arguments State : clear implicits.

(** ** A small run, in exact real arithmetic *)

(** Parameters of the notebook's shapes, all zero, as objects 1 to 6 of a
    store whose objects 7 to 12 are their gradient buffers. *)
Definition example_params : Params R :=
  mkParams
    (replicate 784 (replicate 256 0%R)) (replicate 256 0%R)
    (replicate 256 (replicate 128 0%R)) (replicate 128 0%R)
    (replicate 128 (replicate 10 0%R)) (replicate 10 0%R).

Definition example_env : Env := mkEnv 1 2 3 4 5 6.

Definition example_grads : list positive := [7; 8; 9; 10; 11; 12]%positive.

Definition example_store : gmap positive (NDArray R) :=
  list_to_map
    (zip (params example_env)
       (zip_with (λ t g, mkND t (Some g)) (grad_tensors example_params)
          example_grads)
     ++ zip example_grads
          (map (λ t, mkND t None) (grad_tensors example_params))).

(** One image with the label 0. *)
Definition example_batch : Batch R := mkBatch (replicate 784 0%R) [0].

(** A differentiation engine that returns the parameters as gradients. *)
Definition example_autograd (ps : Params R) (X Y : list (list R)) : Params R := ps.

Definition example_state : State R :=
  mkState example_store 0%R (mkAccuracy 0 0) [].

(** A classifier that predicts class 1 for every row, and batches of one
    image labelled 1 and 0. *)
Definition always_one (X : list (list R)) : option (list (list R)) :=
  Some (map (λ _, [0%R; 1%R]) X).

Definition batch_of_one : Batch R := mkBatch (replicate 784 0%R) [1].
Definition batch_of_zero : Batch R := mkBatch (replicate 784 0%R) [0].

(** A one-entry parameter (object 1) with its gradient buffer (object 2),
    both holding 1. *)
Definition tiny_store : gmap positive (NDArray R) :=
  <[1%positive := mkND (Vec [1%R]) (Some 2%positive)]>
    (<[2%positive := mkND (Vec [1%R]) None]> ∅).

(** ** The NDArray tutorial *)

(** Scores that lie far apart, and an array with a NaN entry. *)
Definition far_apart : list (list xreal) :=
  [[Fin 0; Fin 0]; [Fin 200; Fin 200]].

Definition nan_and_negative : list (list xreal) := [[NaN; Fin (-1)]].

Section Tutorial.
Context {num : Type} `{!Scalar num}.

(** [nd.ones((n, m))] and [nd.zeros(shape=(n, m))] *)
Definition nd_ones (n m : nat) : list (list num) := replicate n (replicate m one).
Definition nd_zeros (n m : nat) : list (list num) := replicate n (replicate m zero).

(** [x.size]: the number of entries. *)
Definition nd_size (X : list (list num)) : nat := length (concat X).

(** [x + y], entry by entry, for operands of one shape; [None] stands for
    operands of different shapes, which the embedding does not cover. *)
Definition nd_plus (X Y : list (list num)) : option (list (list num)) :=
  if same_shape X Y then Some (zip_with (zip_with fadd) X Y) else None.

(** The entry [x[i, j]], for reading. *)
Definition nd_entry (i j : nat) (X : list (list num)) : option num :=
  row ← X !! i;
  row !! j.

(** [x[i, j] = v]: both indices must be below the dimensions. *)
Definition nd_set_item (i j : nat) (v : num) (X : list (list num))
    : option (list (list num)) :=
  row ← X !! i;
  if j <? length row then Some (<[i := <[j := v]> row]> X) else None.

(** [x[r0:r1, c0:c1] = v] for ranges that are non-empty and end within
    their dimension: every entry of the block becomes [v].  [None] stands
    for every other range, which the embedding does not cover (what the
    engine does with an empty or overlong range depends on its version). *)
Definition nd_set_block (r0 r1 c0 c1 : nat) (v : num) (X : list (list num))
    : option (list (list num)) :=
  if (r0 <? r1) && (r1 <=? length X) && (c0 <? c1) && (c1 <=? ncols X)
  then Some (imap (λ i row,
                     if (r0 <=? i) && (i <? r1)
                     then imap (λ j x, if (c0 <=? j) && (j <? c1) then v else x) row
                     else row) X)
  else None.

(** The variables of a notebook are names bound to objects of the store.
    [x[:] = v] writes into the object that [x] names. *)
Definition assign_slice (x : string) (v : tensor num)
    (st : gmap string positive * gmap positive (NDArray num))
    : option (gmap string positive * gmap positive (NDArray num)) :=
  r ← st.1 !! x;
  h ← set_slice r v st.2;
  Some (st.1, h).

(** [x = v] binds the name [x] to a new object that holds [v]. *)
Definition assign_name (x : string) (v : tensor num)
    (st : gmap string positive * gmap positive (NDArray num))
    : gmap string positive * gmap positive (NDArray num) :=
  let r := fresh (dom st.2) in
  (<[x := r]> st.1, <[r := mkND v None]> st.2).

(** The value that the name [x] stands for. *)
Definition read_name (x : string)
    (st : gmap string positive * gmap positive (NDArray num)) : option (tensor num) :=
  r ← st.1 !! x;
  p ← st.2 !! r;
  Some (data p).

End Tutorial.

Section NotebookFacts.
Context {num : Type} `{!Scalar num}.
Implicit Types (h : gmap positive (NDArray num)) (t u gv : tensor num).

(** * Facts that hold in every arithmetic *)

Lemma zip_with_map_same {A B C D} (f : B → C → D) (g : A → B) (h : A → C) l :
  zip_with f (map g l) (map h l) = map (λ a, f (g a) (h a)) l.
Proof. induction l as [|a l IH]; simpl; [done|]. by rewrite IH. Qed.

Lemma zip_with_map_r_same {A B C} (f : A → B → C) (h : A → B) l :
  zip_with f l (map h l) = map (λ a, f a (h a)) l.
Proof. induction l as [|a l IH]; simpl; [done|]. by rewrite IH. Qed.

Lemma shape2_alt n m (X : list (list num)) :
  shape2 n m X ↔ map length X = replicate n m.
Proof.
  unfold shape2. revert n. induction X as [|row X IH]; intros n; simpl.
  - split.
    + by intros [<- _].
    + destruct n; [by split|done].
  - split.
    + intros [<- HF]. apply Forall_cons in HF as [-> HF]. simpl. f_equal.
      apply IH. by split.
    + destruct n as [|n]; [done|]. simpl. intros [= Hrow HX].
      apply IH in HX as [HX HF]. split; [by rewrite HX|].
      by apply Forall_cons.
Qed.

Lemma shape2_transfer n m (X Y : list (list num)) :
  map length Y = map length X → shape2 n m X → shape2 n m Y.
Proof. intros HY HX. apply shape2_alt. rewrite HY. by apply shape2_alt. Qed.

Lemma relu_entries X : relu X = map (map (λ x, fmax x zero)) X.
Proof.
  unfold relu, nd_maximum, nd_zeros_like.
  rewrite zip_with_map_r_same. apply map_ext. intros row.
  apply zip_with_map_r_same.
Qed.

Lemma relu_shape X : map length (relu X) = map length X.
Proof.
  rewrite relu_entries, map_map. apply map_ext. intros row.
  apply length_map.
Qed.

Lemma softmax_rows y_linear :
  softmax y_linear =
  map (λ row,
         let e := map (λ x, fexp (fsub x (nd_max y_linear))) row in
         map (λ v, fdiv v (vsum e)) e) y_linear.
Proof.
  unfold softmax, nd_div, reshape_col, nd_sum_rows, nd_exp, nd_sub_scalar.
  rewrite !map_map, zip_with_map_same. apply map_ext. intros row.
  by rewrite !(map_map (λ x, fsub x _) fexp).
Qed.

Lemma softmax_shape y_linear : map length (softmax y_linear) = map length y_linear.
Proof.
  rewrite softmax_rows, map_map. apply map_ext. intros row. simpl.
  by rewrite !length_map.
Qed.

Lemma rows_checked n m (X : list (list num)) :
  shape2 n m X → forallb (λ x, length x =? m) X = true.
Proof.
  intros [_ HF]. apply forallb_forall. intros x Hx.
  rewrite Forall_forall in HF. apply Nat.eqb_eq, HF.
  by apply list_elem_of_In.
Qed.

Lemma nd_dot_shaped n k (X W : list (list num)) :
  shape2 n k X → length W = k → nd_dot X W = Some (matmul X W).
Proof.
  intros HX HW. unfold nd_dot. rewrite HW.
  by rewrite (rows_checked n k X).
Qed.

Lemma nd_add_shaped n m (X : list (list num)) (b : list num) :
  shape2 n m X → shape1 m b → nd_add X b = Some (add_bias X b).
Proof.
  unfold shape1. intros HX Hb. unfold nd_add. rewrite Hb.
  by rewrite (rows_checked n m X).
Qed.

Lemma ncols_shape k m (W : list (list num)) : shape2 (S k) m W → ncols W = m.
Proof.
  intros [HW HF]. destruct W as [|row W]; [done|]. simpl.
  by apply Forall_cons in HF as [? _].
Qed.

Lemma matmul_shape n k m (X W : list (list num)) :
  length X = n → shape2 (S k) m W → shape2 n m (matmul X W).
Proof.
  intros HX HW. split; unfold matmul.
  - by rewrite length_map.
  - apply Forall_map, Forall_forall. intros x _. simpl.
    rewrite length_map, length_seq. by eapply ncols_shape.
Qed.

Lemma add_bias_shape n m (X : list (list num)) (b : list num) :
  shape2 n m X → shape1 m b → shape2 n m (add_bias X b).
Proof.
  unfold shape1. intros [HX HF] Hb. split; unfold add_bias.
  - by rewrite length_map.
  - apply Forall_map. eapply Forall_impl; [exact HF|]. intros x Hx. simpl in *.
    rewrite length_zip_with. lia.
Qed.

Lemma affine_shape n k m (X W : list (list num)) (b : list num) :
  shape2 n (S k) X → shape2 (S k) m W → shape1 m b →
  nd_dot X W ≫= (λ d, nd_add d b) = Some (affine X W b)
  ∧ shape2 n m (affine X W b).
Proof.
  intros HX HW Hb.
  assert (shape2 n m (matmul X W)) as HM.
  { eapply matmul_shape; [apply HX|exact HW]. }
  split.
  - rewrite (nd_dot_shaped n (S k)); [|done|apply HW]. simpl.
    by apply (nd_add_shaped n m).
  - by apply add_bias_shape.
Qed.

Lemma params_shaped_inv (ps : Params num) :
  params_shaped ps →
  shape2 784 256 (W1 ps) ∧ shape1 256 (b1 ps) ∧
  shape2 256 128 (W2 ps) ∧ shape1 128 (b2 ps) ∧
  shape2 128 10 (W3 ps) ∧ shape1 10 (b3 ps).
Proof.
  unfold params_shaped, param_shapes, grad_tensors. intros H.
  repeat (apply Forall2_cons in H as [? H]). tauto.
Qed.

Lemma net_shaped (ps : Params num) X n :
  params_shaped ps → shape2 n 784 X →
  net ps X = Some (net_formula ps X) ∧ shape2 n 10 (net_formula ps X).
Proof.
  intros Hps HX.
  apply params_shaped_inv in Hps as (HW1 & Hb1 & HW2 & Hb2 & HW3 & Hb3).
  destruct (affine_shape n 783 256 X (W1 ps) (b1 ps)) as [E1 S1]; [done..|].
  pose proof (shape2_transfer _ _ _ _ (relu_shape _) S1) as R1.
  destruct (affine_shape n 255 128 _ (W2 ps) (b2 ps) R1) as [E2 S2]; [done..|].
  pose proof (shape2_transfer _ _ _ _ (relu_shape _) S2) as R2.
  destruct (affine_shape n 127 10 _ (W3 ps) (b3 ps) R2) as [E3 S3]; [done..|].
  split.
  - unfold net, net_formula.
    apply bind_Some in E1 as (d1 & -> & E1). simpl. rewrite E1. simpl.
    apply bind_Some in E2 as (d2 & -> & E2). simpl. rewrite E2. simpl.
    apply bind_Some in E3 as (d3 & -> & E3). simpl. by rewrite E3.
  - unfold net_formula. eapply shape2_transfer; [apply softmax_shape|done].
Qed.

(** C1. On a batch of shape (n, 784), with the parameters of the shapes the
    notebook allocates, [net] returns
    softmax(relu(relu(X.W1 + b1).W2 + b2).W3 + b3): two hidden affine layers,
    each followed by ReLU, a third affine layer and softmax; the result
    has shape (n, 10). *)
Theorem net_two_hidden_layers (ps : Params num) X n :
  params_shaped ps → shape2 n 784 X →
  net ps X = Some (net_formula ps X) ∧ shape2 n 10 (net_formula ps X).
Proof. apply net_shaped. Qed.

(** ** The store and [SGD] *)

Lemma tensor_same_shape_spec t u :
  tensor_same_shape t u = true ↔ tensor_shape t = tensor_shape u.
Proof.
  destruct t as [v|X], u as [w|Y]; simpl; unfold same_shape;
    rewrite ?bool_decide_eq_true; split; try done; try congruence.
Qed.

Lemma tensor_shape_scale c t : tensor_shape (tensor_scale c t) = tensor_shape t.
Proof.
  destruct t as [v|X]; simpl.
  - by rewrite length_map.
  - f_equal. rewrite map_map. apply map_ext. intros row. apply length_map.
Qed.

Lemma zip_with_rows_shape {A B C} (f : A → B → C) (X : list (list A)) Y :
  map length X = map length Y →
  map length (zip_with (zip_with f) X Y) = map length X.
Proof.
  revert Y. induction X as [|x X IH]; intros [|y Y]; simpl; try done.
  intros [= Hxy HXY]. rewrite IH by done. f_equal.
  rewrite length_zip_with. lia.
Qed.

Lemma tensor_shape_minus t u :
  tensor_shape t = tensor_shape u → tensor_shape (tensor_minus t u) = tensor_shape t.
Proof.
  destruct t as [v|X], u as [w|Y]; simpl; try done.
  - intros [= Hvw]. rewrite length_zip_with. do 2 f_equal. lia.
  - intros [= HXY]. f_equal. by apply zip_with_rows_shape.
Qed.

Lemma SGD_update_Some lr param h x g y :
  h !! param = Some x → grad x = Some g → h !! g = Some y →
  tensor_shape (data x) = tensor_shape (data y) →
  SGD_update lr param h
  = Some (<[param := mkND (tensor_minus (data x) (tensor_scale lr (data y)))
                       (Some g)]> h).
Proof.
  intros Hx Hg Hy Hshape. unfold SGD_update, tensor_sub, set_slice.
  rewrite Hx. simpl. rewrite Hg. simpl. rewrite Hy. simpl.
  assert (tensor_shape (data x) = tensor_shape (tensor_scale lr (data y))) as Hs.
  { by rewrite tensor_shape_scale. }
  rewrite (proj2 (tensor_same_shape_spec _ _) Hs). simpl.
  assert (tensor_same_shape (data x)
            (tensor_minus (data x) (tensor_scale lr (data y))) = true) as ->.
  { apply tensor_same_shape_spec. by rewrite tensor_shape_minus. }
  done.
Qed.

Lemma same_objects_refl h : same_objects h h.
Proof. intros l. destruct (h !! l); by constructor. Qed.

Lemma same_objects_trans h1 h2 h3 :
  same_objects h1 h2 → same_objects h2 h3 → same_objects h1 h3.
Proof.
  intros H12 H23 l. specialize (H12 l). specialize (H23 l).
  destruct H12 as [x y [Hg Hs]|]; inversion H23 as [? z [Hg' Hs']|]; subst;
    constructor. split; congruence.
Qed.

Lemma same_objects_insert h l x x' :
  h !! l = Some x → grad x' = grad x →
  tensor_shape (data x') = tensor_shape (data x) →
  same_objects h (<[l := x']> h).
Proof.
  intros Hl Hg Hs l'. destruct (decide (l' = l)) as [->|Hne].
  - rewrite lookup_insert_eq, Hl. by constructor.
  - rewrite lookup_insert_ne by done. apply same_objects_refl.
Qed.

Lemma same_objects_dom h h' : same_objects h h' → dom h' = dom h.
Proof.
  intros H. apply set_eq. intros l. rewrite !elem_of_dom.
  specialize (H l). destruct H; split; intros [? ?]; by eauto.
Qed.

(** Every element of [ps] has a gradient buffer of its own shape. *)
Lemma grads_kept (ps : list positive) h h' :
  same_objects h h' →
  (∀ p, p ∈ ps → ∃ x g y, h !! p = Some x ∧ grad x = Some g ∧ h !! g = Some y
                          ∧ tensor_shape (data x) = tensor_shape (data y)) →
  ∀ p, p ∈ ps → ∃ x g y, h' !! p = Some x ∧ grad x = Some g ∧ h' !! g = Some y
                         ∧ tensor_shape (data x) = tensor_shape (data y).
Proof.
  intros Hsame H p Hp. destruct (H p Hp) as (x & g & y & Hx & Hg & Hy & Hs).
  pose proof (Hsame p) as Hp'. rewrite Hx in Hp'.
  inversion Hp' as [? x' [Hg' Hs']|]; subst.
  pose proof (Hsame g) as Hg''. rewrite Hy in Hg''.
  inversion Hg'' as [? y' [_ Hs'']|]; subst.
  exists x', g, y'. repeat split; congruence.
Qed.

Lemma SGD_total (ps : list positive) lr h :
  (∀ p, p ∈ ps → ∃ x g y, h !! p = Some x ∧ grad x = Some g ∧ h !! g = Some y
                          ∧ tensor_shape (data x) = tensor_shape (data y)) →
  ∃ h', SGD ps lr h = Some h' ∧ same_objects h h'.
Proof.
  revert h. induction ps as [|p ps IH]; intros h H; simpl.
  - exists h. split; [done|apply same_objects_refl].
  - destruct (H p) as (x & g & y & Hx & Hg & Hy & Hs); [by left|].
    rewrite (SGD_update_Some lr p h x g y) by done. simpl.
    set (h1 := <[p := _]> h).
    assert (same_objects h h1) as H1.
    { apply (same_objects_insert h p x); [done|by simpl|].
      simpl. rewrite tensor_shape_minus; [done|by rewrite tensor_shape_scale]. }
    destruct (IH h1) as (h' & HS & H').
    { apply (grads_kept ps h h1 H1). intros q Hq. apply H. by right. }
    exists h'. split; [done|]. by eapply same_objects_trans.
Qed.

Lemma has_grad_ok h p v g gv :
  has_grad h p v g gv →
  ∃ x g y, h !! p = Some x ∧ grad x = Some g ∧ h !! g = Some y
           ∧ tensor_shape (data x) = tensor_shape (data y).
Proof.
  intros (gg & Hp & Hg & Hs). exists (mkND v (Some g)), g, (mkND gv gg).
  repeat split; try done. simpl. by apply tensor_same_shape_spec.
Qed.

(** C5. [SGD] works in place: it returns, the store holds the same objects
    afterwards (so the list [params] still refers to the same arrays, in the
    same order), each with the gradient buffer it had attached and with its
    shape; only buffers have changed. *)
Theorem SGD_in_place (ps : list positive) lr h :
  (∀ p, p ∈ ps → ∃ v g gv, has_grad h p v g gv) →
  ∃ h', SGD ps lr h = Some h' ∧ dom h' = dom h ∧
        ∀ l x, h !! l = Some x →
               ∃ x', h' !! l = Some x' ∧ grad x' = grad x
                     ∧ tensor_shape (data x') = tensor_shape (data x).
Proof.
  intros H. destruct (SGD_total ps lr h) as (h' & HS & Hsame).
  { intros p Hp. destruct (H p Hp) as (v & g & gv & Hg).
    by eapply has_grad_ok. }
  exists h'. split; [done|]. split; [by apply same_objects_dom|].
  intros l x Hl. specialize (Hsame l). rewrite Hl in Hsame.
  inversion Hsame as [? x' [? ?]|]; subst. by exists x'.
Qed.

Lemma SGD_distinct (ps : list positive) lr h :
  NoDup ps →
  (∀ p, p ∈ ps → ∃ v g gv, has_grad h p v g gv ∧ g ∉ ps) →
  ∃ h', SGD ps lr h = Some h' ∧
        (∀ p v g gv, p ∈ ps → has_grad h p v g gv →
           h' !! p = Some (mkND (tensor_minus v (tensor_scale lr gv)) (Some g))) ∧
        (∀ l, l ∉ ps → h' !! l = h !! l).
Proof.
  revert h. induction ps as [|p ps IH]; intros h Hnd H; simpl.
  - exists h. split; [done|]. split; [|done]. intros p v g gv Hp.
    by apply elem_of_nil in Hp.
  - apply NoDup_cons in Hnd as [Hp Hnd].
    destruct (H p) as (v & g & gv & (gg & Hx & Hy & Hs) & Hg); [by left|].
    rewrite (SGD_update_Some lr p h _ g _ Hx eq_refl Hy)
      by (by apply tensor_same_shape_spec).
    simpl. set (h1 := <[p := _]> h).
    assert (∀ q v' g' gv', q ∈ ps → g' ∉ p :: ps →
              has_grad h q v' g' gv' → has_grad h1 q v' g' gv') as Hkeep.
    { intros q v' g' gv' Hq Hg' (gg' & Hq1 & Hq2 & Hq3). exists gg'.
      unfold h1. rewrite !lookup_insert_ne; [done| |].
      - intros ->. apply Hg'. by left.
      - by intros ->. }
    destruct (IH h1 Hnd) as (h' & HS & Hnew & Hold).
    { intros q Hq. destruct (H q) as (v' & g' & gv' & Hq' & Hg'); [by right|].
      exists v', g', gv'. split; [by apply Hkeep|].
      intros Hin. apply Hg'. by right. }
    exists h'. split; [done|]. split.
    + intros q v' g' gv' Hq Hq'. apply elem_of_cons in Hq as [->|Hq].
      * rewrite (Hold p Hp). unfold h1. rewrite lookup_insert_eq.
        destruct Hq' as (gg' & Hq1 & Hq2 & _).
        rewrite Hx in Hq1. injection Hq1 as <- <-.
        rewrite Hy in Hq2. by injection Hq2 as <- <-.
      * apply Hnew; [done|]. apply Hkeep; [done| |done].
        destruct (H q) as (v'' & g'' & gv'' & (gg'' & Hq1 & _) & Hg''); [by right|].
        destruct Hq' as (gg' & Hq1' & _). rewrite Hq1 in Hq1'.
        by injection Hq1' as <- <-.
    + intros l Hl. apply not_elem_of_cons in Hl as [Hlp Hl].
      rewrite (Hold l Hl). unfold h1. by rewrite lookup_insert_ne.
Qed.

(** C4, for parameters that are pairwise distinct objects and none of
    which is the gradient buffer of one of them: [SGD] returns, each
    parameter then holds its previous value minus [lr] times its gradient
    buffer, and every other array of the store is as it was. *)
Theorem SGD_step_distinct (ps : list positive) lr h :
  NoDup ps →
  (∀ p, p ∈ ps → ∃ v g gv, has_grad h p v g gv ∧ g ∉ ps) →
  ∃ h', SGD ps lr h = Some h' ∧
        (∀ p v g gv, p ∈ ps → has_grad h p v g gv →
           h' !! p = Some (mkND (tensor_minus v (tensor_scale lr gv)) (Some g))) ∧
        (∀ l, l ∉ ps → h' !! l = h !! l).
Proof. apply SGD_distinct. Qed.

(** ** The steps of the training loop *)

Lemma chunks_shape k w (buf : list num) :
  length buf = k * w → shape2 k w (chunks k w buf).
Proof.
  revert buf. induction k as [|k IH]; intros buf Hlen; simpl.
  - by split.
  - destruct (IH (drop w buf)) as [Hk HF].
    { rewrite length_drop. lia. }
    split; simpl; [by rewrite Hk|].
    apply Forall_cons. split; [|done]. rewrite length_take. lia.
Qed.

Lemma reshape_rows_shaped k w (buf : list num) :
  w ≠ 0 → length buf = k * w →
  reshape_rows w buf = Some (chunks k w buf) ∧ shape2 k w (chunks k w buf).
Proof.
  intros Hw Hlen. split; [|by apply chunks_shape].
  unfold reshape_rows. rewrite Hlen, Nat.Div0.mod_mul, Nat.div_mul by done.
  done.
Qed.

Lemma one_hot_shape (label : list nat) depth :
  map length (nd_one_hot label depth) = replicate (length label) depth.
Proof.
  unfold nd_one_hot. induction label as [|l label IH]; simpl; [done|].
  by rewrite IH, length_map, length_seq.
Qed.

Lemma cross_entropy_shaped k m (yhat : list (list num)) (label : list nat) :
  shape2 k m yhat → length label = k →
  ∃ loss, cross_entropy yhat (nd_one_hot label m) = Some loss ∧ length loss = k.
Proof.
  intros Hy Hl. unfold cross_entropy, nd_mul.
  assert (map length (nd_one_hot label m) = map length (nd_log yhat)) as Hs.
  { rewrite one_hot_shape, Hl. unfold nd_log. rewrite map_map.
    rewrite <- (proj1 (shape2_alt k m yhat) Hy). apply map_ext.
    intros row. by rewrite length_map. }
  unfold same_shape. rewrite bool_decide_eq_true_2 by done. simpl.
  eexists. split; [done|]. unfold nd_sum_rows.
  rewrite !length_map, length_zip_with. unfold nd_one_hot, nd_log.
  rewrite !length_map. destruct Hy as [Hy _]. lia.
Qed.

Lemma moving_loss_update_total i moving_loss (loss : list num) :
  0 < length loss → ∃ ml, moving_loss_update i moving_loss loss = Some ml.
Proof.
  destruct loss as [|l0 loss]; simpl; [lia|]. intros _.
  unfold moving_loss_update. simpl. destruct (i =? 0); by eexists.
Qed.

Lemma Forall3_elem_impl {A B C} (P Q : A → B → C → Prop) l k m :
  Forall3 P l k m →
  (∀ a b c, a ∈ l → b ∈ k → P a b c → Q a b c) →
  Forall3 Q l k m.
Proof.
  induction 1 as [|a b c l k m HP HF IH]; intros HPQ; constructor.
  - apply HPQ; [by left|by left|done].
  - apply IH. intros a' b' c' Ha Hb. apply HPQ; by right.
Qed.

Lemma Forall3_elem_l {A B C} (P : A → B → C → Prop) l k m a :
  Forall3 P l k m → a ∈ l → ∃ b c, b ∈ k ∧ P a b c.
Proof.
  induction 1 as [|a' b c l k m HP HF IH]; intros Ha.
  - by apply elem_of_nil in Ha.
  - apply elem_of_cons in Ha as [->|Ha].
    + exists b, c. split; [by left|done].
    + destruct (IH Ha) as (b' & c' & Hb & HP'). exists b', c'.
      split; [by right|done].
Qed.

Lemma tensor_has_shape_same sh (v w : tensor num) :
  tensor_has_shape sh v → tensor_has_shape sh w → tensor_shape v = tensor_shape w.
Proof.
  destruct v as [v|X], w as [w|Y], sh as [|n [|m [|? ?]]]; simpl; try done.
  - unfold shape1. by intros -> ->.
  - intros HX HY. f_equal.
    apply shape2_alt in HX, HY. by rewrite HX, HY.
Qed.

Lemma tensor_has_shape_transfer sh (v w : tensor num) :
  tensor_has_shape sh v → tensor_shape w = tensor_shape v → tensor_has_shape sh w.
Proof.
  destruct v as [v|X], w as [w|Y], sh as [|n [|m [|? ?]]]; simpl; try done.
  - unfold shape1. by intros <- [= ->].
  - intros HX [= HY]. by eapply shape2_transfer.
Qed.

Lemma write_grads_attached ps gs shs ts h :
  NoDup (ps ++ gs) → Forall3 (attached h) ps gs shs →
  Forall2 tensor_has_shape shs ts →
  ∃ h', write_grads (zip ps ts) h = Some h' ∧ Forall3 (attached h') ps gs shs
        ∧ ∀ l, l ∉ gs → h' !! l = h !! l.
Proof.
  revert gs shs ts h. induction ps as [|p ps IH]; intros gs shs ts h Hnd HF Hts.
  - inversion HF; subst. exists h. split; [done|]. split; [constructor|done].
  - inversion HF as [|? g sh ? gs' shs' HP HF']; subst.
    inversion Hts as [|? t ? ts' Ht Hts']; subst. simpl.
    destruct HP as (v & gv & gg & Hp & Hv & Hg & Hgv).
    unfold write_grad. simpl. rewrite Hp. simpl. rewrite Hg. simpl.
    set (h1 := <[g := mkND t gg]> h).
    simpl in Hnd. apply NoDup_cons in Hnd as [Hp_fresh Hnd].
    apply NoDup_app in Hnd as (Hps & Hdisj & Hgs).
    apply NoDup_cons in Hgs as [Hg_fresh Hgs].
    assert (p ≠ g) as Hpg.
    { intros ->. apply Hp_fresh. apply elem_of_app. right. by left. }
    assert (g ∉ ps) as Hg_ps.
    { intros Hin. apply (Hdisj g Hin). by left. }
    assert (p ∉ gs') as Hp_gs.
    { intros Hin. apply Hp_fresh. apply elem_of_app. right. by right. }
    destruct (IH gs' shs' ts' h1) as (h' & Hw & HF'' & Hframe); [| |done|].
    { apply NoDup_app. repeat split; [done| |done].
      intros l Hl Hl'. apply (Hdisj l Hl). by right. }
    { eapply Forall3_elem_impl; [exact HF'|].
      intros a b c Ha Hb (va & gva & gga & Ha1 & Ha2 & Ha3 & Ha4).
      exists va, gva, gga. unfold h1.
      rewrite !lookup_insert_ne; [done|by intros ->|by intros ->]. }
    exists h'. split; [done|]. split.
    + constructor; [|done]. exists v, t, gg.
      rewrite !Hframe by done. unfold h1.
      rewrite lookup_insert_ne by done. by rewrite lookup_insert_eq.
    + intros l Hl. apply not_elem_of_cons in Hl as [Hlg Hl].
      rewrite Hframe by done. unfold h1. by rewrite lookup_insert_ne.
Qed.

Lemma SGD_attached ps gs shs lr h :
  NoDup (ps ++ gs) → Forall3 (attached h) ps gs shs →
  ∃ h', SGD ps lr h = Some h' ∧ Forall3 (attached h') ps gs shs.
Proof.
  intros Hnd HF. apply NoDup_app in Hnd as (Hps & Hdisj & Hgs).
  destruct (SGD_distinct ps lr h Hps) as (h' & HS & Hnew & Hold).
  { intros p Hp. destruct (Forall3_elem_l _ _ _ _ p HF Hp)
      as (g & sh & Hg & v & gv & gg & H1 & H2 & H3 & H4).
    exists v, g, gv. split.
    - exists gg. repeat split; [done..|].
      apply tensor_same_shape_spec. by eapply tensor_has_shape_same.
    - intros Hin. by apply (Hdisj g Hin). }
  exists h'. split; [done|].
  eapply Forall3_elem_impl; [exact HF|].
  intros p g sh Hp Hg (v & gv & gg & H1 & H2 & H3 & H4).
  assert (tensor_shape v = tensor_shape gv) as Hs.
  { by eapply tensor_has_shape_same. }
  exists (tensor_minus v (tensor_scale lr gv)), gv, gg. repeat split.
  - apply Hnew; [done|]. exists gg. repeat split; [done..|].
    by apply tensor_same_shape_spec.
  - eapply tensor_has_shape_transfer; [exact H2|].
    rewrite tensor_shape_minus; [done|by rewrite tensor_shape_scale].
  - rewrite Hold; [done|]. intros Hin. by apply (Hdisj g Hin).
  - done.
Qed.

Lemma update_step_wf E gs grads h :
  wf_store E gs h → params_shaped grads →
  ∃ h', update_step E grads h = Some h' ∧ wf_store E gs h'.
Proof.
  intros [Hnd HF] Hgr. unfold update_step, backward.
  destruct (write_grads_attached _ _ _ _ h Hnd HF Hgr) as (h1 & -> & HF1 & _).
  destruct (SGD_attached _ _ _ (lit (1 # 100)) h1 Hnd HF1) as (h' & HS & HF').
  exists h'. by repeat split.
Qed.

Lemma wf_read_params E gs h :
  wf_store E gs h → ∃ ps, read_params E h = Some ps ∧ params_shaped ps.
Proof.
  intros [_ HF]. unfold params, param_shapes in HF.
  repeat match goal with
         | H : Forall3 _ (_ :: _) _ _ |- _ => inversion H; subst; clear H
         end.
  repeat match goal with
         | H : attached _ _ _ _ |- _ =>
             destruct H as ([?|?] & _ & _ & ? & ? & _); try done
         end.
  unfold read_params, read_mat, read_vec.
  repeat match goal with
         | H : h !! _ = Some _ |- _ => rewrite H; clear H; simpl
         end.
  eexists. split; [done|].
  unfold params_shaped, param_shapes, grad_tensors. simpl.
  repeat (apply Forall2_cons; split; [done|]). constructor.
Qed.

Lemma train_batch_wf E gs autograd i batch h ml :
  (∀ ps X Y, params_shaped ps → params_shaped (autograd ps X Y)) →
  wf_store E gs h → wf_batch batch →
  ∃ h' ml' loss,
    train_batch E autograd i batch (h, ml) = Some (h', ml')
    ∧ batch_update E autograd batch h = Some h'
    ∧ batch_loss E batch h = Some loss
    ∧ moving_loss_update i ml loss = Some ml'
    ∧ wf_store E gs h'.
Proof.
  intros Hag Hwf (k & Hk & Hdata & Hlabel).
  destruct (reshape_rows_shaped k 784 (batch_data batch)) as [Hr Hshape]; [done..|].
  destruct (wf_read_params E gs h Hwf) as (ps & Hps & Hsh).
  destruct (net_shaped ps _ k Hsh Hshape) as [Hnet Hout].
  destruct (cross_entropy_shaped k 10 _ (batch_label batch) Hout Hlabel)
    as (loss & Hloss & Hlen).
  destruct (update_step_wf E gs
              (autograd ps (chunks k 784 (batch_data batch))
                 (nd_one_hot (batch_label batch) 10)) h Hwf)
    as (h' & Hup & Hwf'); [by apply Hag|].
  destruct (moving_loss_update_total i ml loss) as (ml' & Hml); [lia|].
  exists h', ml', loss. unfold train_batch, batch_update, batch_loss.
  rewrite Hr. simpl. rewrite Hps. simpl. rewrite Hnet. simpl.
  rewrite Hloss. simpl. rewrite Hup. simpl. rewrite Hml. simpl. auto 6.
Qed.

Lemma train_batches_wf E gs autograd batches : ∀ i h ml,
  (∀ ps X Y, params_shaped ps → params_shaped (autograd ps X Y)) →
  wf_store E gs h → Forall wf_batch batches →
  ∃ h' ml' losses,
    train_batches E autograd i batches (h, ml) = Some (h', ml')
    ∧ apply_updates E autograd batches h = Some h'
    ∧ batch_losses E autograd batches h = Some losses
    ∧ wf_store E gs h'.
Proof.
  induction batches as [|batch rest IH]; intros i h ml Hag Hwf Hbs.
  - exists h, ml, []. simpl. auto.
  - apply Forall_cons in Hbs as [Hb Hbs].
    destruct (train_batch_wf E gs autograd i batch h ml Hag Hwf Hb)
      as (h1 & ml1 & loss & Ht & Hu & Hl & _ & Hwf1).
    destruct (IH (S i) h1 ml1 Hag Hwf1 Hbs) as (h' & ml' & losses & Ht' & Hu' & Hl' & Hwf').
    exists h', ml', (loss :: losses). simpl.
    rewrite Ht, Hu, Hl. simpl. rewrite Ht', Hu', Hl'. simpl. auto.
Qed.

Lemma evaluate_batches_total E gs h batches : ∀ m,
  wf_store E gs h → Forall wf_batch batches →
  ∃ m', evaluate_batches (net_in E h) batches m = Some m'
        ∧ num_inst m' = num_inst m + samples batches.
Proof.
  induction batches as [|batch rest IH]; intros m Hwf Hbs.
  - exists m. split; [done|simpl; lia].
  - apply Forall_cons in Hbs as [(k & Hk & Hdata & Hlabel) Hbs].
    destruct (reshape_rows_shaped k 784 (batch_data batch)) as [Hr Hshape]; [done..|].
    destruct (wf_read_params E gs h Hwf) as (ps & Hps & Hsh).
    destruct (net_shaped ps _ k Hsh Hshape) as [Hnet [Hout _]].
    assert (net_in E h (chunks k 784 (batch_data batch))
            = Some (net_formula ps (chunks k 784 (batch_data batch)))) as Hni.
    { unfold net_in. rewrite Hps. exact Hnet. }
    cbn [evaluate_batches samples foldr]. rewrite Hr. cbn [mbind option_bind].
    rewrite Hni. cbn [mbind option_bind].
    unfold metric_update. rewrite length_map, Hout, Hlabel, Nat.eqb_refl.
    cbn [mbind option_bind].
    destruct (IH (mkAccuracy (sum_metric m + hits (map argmax (net_formula ps
                (chunks k 784 (batch_data batch)))) (batch_label batch))
                (num_inst m + k)) Hwf Hbs) as (m' & Hm' & Hn).
    exists m'. split; [done|]. rewrite Hn. cbn [num_inst]. fold (samples rest). lia.
Qed.

Lemma apply_updates_app E autograd bs1 bs2 h :
  apply_updates E autograd (bs1 ++ bs2) h
  = apply_updates E autograd bs1 h ≫= apply_updates E autograd bs2.
Proof.
  revert h. induction bs1 as [|b bs1 IH]; intros h; [done|].
  cbn [app apply_updates].
  destruct (batch_update E autograd b h) as [h1|]; [|done].
  cbn [mbind option_bind]. apply IH.
Qed.

Lemma train_epoch_wf E gs autograd train_data test_data e st :
  (∀ ps X Y, params_shaped ps → params_shaped (autograd ps X Y)) →
  wf_store E gs (store st) →
  Forall wf_batch train_data → Forall wf_batch test_data →
  ∃ st', train_epoch E autograd train_data test_data e st = Some st'
    ∧ apply_updates E autograd train_data (store st) = Some (store st')
    ∧ wf_store E gs (store st')
    ∧ map line_epoch (printed st') = map line_epoch (printed st) ++ [e]
    ∧ num_inst (metric st')
      = num_inst (metric st) + (samples test_data + samples train_data).
Proof.
  intros Hag Hwf Htrain Htest.
  destruct (train_batches_wf E gs autograd train_data 0 (store st)
              (moving_loss st) Hag Hwf Htrain)
    as (h' & ml' & losses & Ht & Hu & _ & Hwf').
  destruct (evaluate_batches_total E gs h' test_data (metric st) Hwf' Htest)
    as (m1 & Hm1 & Hn1).
  destruct (evaluate_batches_total E gs h' train_data m1 Hwf' Htrain)
    as (m2 & Hm2 & Hn2).
  eexists. unfold train_epoch, evaluate_accuracy.
  rewrite Ht. cbn [mbind option_bind fst snd].
  rewrite Hm1. cbn [mbind option_bind fst snd].
  rewrite Hm2. cbn [mbind option_bind fst snd].
  split; [done|]. cbn [store printed metric].
  split; [done|]. split; [done|]. split.
  - by rewrite map_app.
  - lia.
Qed.

Lemma run_epochs_wf E gs autograd train_data test_data es : ∀ st,
  (∀ ps X Y, params_shaped ps → params_shaped (autograd ps X Y)) →
  wf_store E gs (store st) →
  Forall wf_batch train_data → Forall wf_batch test_data →
  ∃ st', run_epochs E autograd train_data test_data es st = Some st'
    ∧ apply_updates E autograd (concat (replicate (length es) train_data))
        (store st) = Some (store st')
    ∧ wf_store E gs (store st')
    ∧ map line_epoch (printed st') = map line_epoch (printed st) ++ es
    ∧ num_inst (metric st')
      = num_inst (metric st)
        + length es * (samples test_data + samples train_data).
Proof.
  induction es as [|e es IH]; intros st Hag Hwf Htrain Htest.
  - exists st. cbn [run_epochs length replicate concat apply_updates].
    rewrite app_nil_r. split; [done|]. split; [done|]. split; [done|].
    split; [done|lia].
  - destruct (train_epoch_wf E gs autograd train_data test_data e st
                Hag Hwf Htrain Htest) as (st1 & He & Hu & Hwf1 & Hp & Hn).
    destruct (IH st1 Hag Hwf1 Htrain Htest) as (st' & Hr & Hu' & Hwf' & Hp' & Hn').
    exists st'. cbn [run_epochs length replicate concat].
    rewrite He. cbn [mbind option_bind].
    split; [done|]. split.
    { rewrite apply_updates_app, Hu. exact Hu'. }
    split; [done|]. split.
    { rewrite Hp', Hp, <- app_assoc. done. }
    rewrite Hn', Hn. lia.
Qed.

(** C6. The training loop has no error handling and never looks at the
    loss: in every arithmetic (one with NaN included), on well-formed data
    it runs to its end; the parameters it leaves are those of the updates of
    all batches of all epochs, [epochs] times the number of batches of them,
    applied one after the other; one line is printed for each epoch
    0 .. epochs-1, and the metric has counted every sample of every
    evaluation pass. *)
Theorem training_loop_never_stops E gs autograd train_data test_data n_epochs st :
  (∀ ps X Y, params_shaped ps → params_shaped (autograd ps X Y)) →
  wf_store E gs (store st) →
  Forall wf_batch train_data → Forall wf_batch test_data →
  ∃ st', training_loop E autograd train_data test_data n_epochs st = Some st'
    ∧ apply_updates E autograd (concat (replicate n_epochs train_data))
        (store st) = Some (store st')
    ∧ length (concat (replicate n_epochs train_data)) = n_epochs * length train_data
    ∧ map line_epoch (printed st') = map line_epoch (printed st) ++ seq 0 n_epochs
    ∧ num_inst (metric st')
      = num_inst (metric st)
        + n_epochs * (samples test_data + samples train_data).
Proof.
  intros Hag Hwf Htrain Htest.
  destruct (run_epochs_wf E gs autograd train_data test_data (seq 0 n_epochs) st
              Hag Hwf Htrain Htest) as (st' & Hr & Hu & _ & Hp & Hn).
  rewrite length_seq in Hu, Hn. exists st'. repeat split; try done.
  clear. induction n_epochs as [|n IH]; [done|].
  cbn [replicate concat]. rewrite length_app, IH. lia.
Qed.

(** ** The metric and the moving loss along the loop *)

(** What a pass over [batches] adds to the counters does not depend on
    the counters it starts from. *)
Lemma evaluate_batches_adds net batches : ∀ m m',
  evaluate_batches net batches m = Some m' →
  ∃ c n, ∀ m2, evaluate_batches net batches m2
               = Some (mkAccuracy (sum_metric m2 + c) (num_inst m2 + n)).
Proof.
  induction batches as [|batch rest IH]; intros m m' Hm.
  - exists 0, 0. intros [s k]. cbn. by rewrite !Nat.add_0_r.
  - cbn [evaluate_batches] in Hm.
    apply bind_Some in Hm as (data & Hdata & Hm).
    apply bind_Some in Hm as (output & Hout & Hm).
    apply bind_Some in Hm as (m1 & Hm1 & Hm).
    destruct (IH m1 m' Hm) as (c & n & Hrest).
    unfold metric_update in Hm1.
    destruct (length (batch_label batch) =? length (map argmax output)) eqn:Hlen;
      [|done].
    exists (hits (map argmax output) (batch_label batch) + c),
      (length (map argmax output) + n).
    intros m2. cbn [evaluate_batches]. rewrite Hdata. cbn [mbind option_bind].
    rewrite Hout. cbn [mbind option_bind]. unfold metric_update. rewrite Hlen.
    cbn [mbind option_bind]. rewrite Hrest. cbn [sum_metric num_inst].
    by rewrite !Nat.add_assoc.
Qed.

Lemma train_batches_moving_loss E autograd batches : ∀ i h ml h' ml',
  train_batches E autograd i batches (h, ml) = Some (h', ml') →
  ∃ losses, batch_losses E autograd batches h = Some losses
            ∧ moving_losses i ml losses = Some ml'.
Proof.
  induction batches as [|batch rest IH]; intros i h ml h' ml' Ht.
  - injection Ht as <- <-. by exists [].
  - cbn [train_batches] in Ht. apply bind_Some in Ht as ([h1 ml1] & Hb & Ht).
    destruct (IH _ _ _ _ _ Ht) as (losses & Hl & Hml).
    unfold train_batch in Hb. cbn [fst snd] in Hb.
    apply bind_Some in Hb as (data & Hdata & Hb).
    apply bind_Some in Hb as (ps & Hps & Hb).
    apply bind_Some in Hb as (output & Hout & Hb).
    apply bind_Some in Hb as (loss & Hloss & Hb).
    apply bind_Some in Hb as (h2 & Hup & Hb).
    apply bind_Some in Hb as (ml2 & Hml2 & Hb).
    injection Hb as -> ->.
    exists (loss :: losses). cbn [batch_losses moving_losses].
    unfold batch_loss, batch_update.
    rewrite Hdata. cbn [mbind option_bind]. rewrite Hps. cbn [mbind option_bind].
    rewrite Hout. cbn [mbind option_bind]. rewrite Hloss. cbn [mbind option_bind].
    rewrite Hup. cbn [mbind option_bind]. rewrite Hl. cbn [mbind option_bind].
    by rewrite Hml2.
Qed.

Lemma train_epoch_printed E autograd train_data test_data e st st' :
  train_epoch E autograd train_data test_data e st = Some st' →
  ∃ h train_acc test_acc,
    train_batches E autograd 0 train_data (store st, moving_loss st)
    = Some (h, moving_loss st')
    ∧ printed st' = printed st ++ [(e, moving_loss st', train_acc, test_acc)].
Proof.
  unfold train_epoch. intros He.
  apply bind_Some in He as ([h ml] & Ht & He).
  apply bind_Some in He as ([r1 m1] & H1 & He).
  apply bind_Some in He as ([r2 m2] & H2 & He).
  injection He as <-. by exists h, r2, r1.
Qed.

(** ** The cell that attaches the gradient buffers *)

Lemma tensor_shape_zeros_like t : tensor_shape (tensor_zeros_like t) = tensor_shape t.
Proof.
  destruct t as [v|X]; simpl.
  - by rewrite length_map.
  - f_equal. unfold nd_zeros_like. rewrite map_map. apply map_ext.
    intros row. apply length_map.
Qed.

Lemma Forall2_elem_impl {A B} (P Q : A → B → Prop) l k :
  Forall2 P l k → (∀ a b, a ∈ l → P a b → Q a b) → Forall2 Q l k.
Proof.
  induction 1 as [|a b l k HP HF IH]; intros HPQ; constructor.
  - apply HPQ; [by left|done].
  - apply IH. intros a' b' Ha. apply HPQ. by right.
Qed.

(** [for param in params: param.attach_grad()] on distinct arrays of the
    shapes [shs] returns a store in which each has a gradient buffer of
    its shape, a new object; the other objects are as they were. *)
Lemma attach_grads_attached ps : ∀ shs h,
  NoDup ps →
  Forall2 (λ p sh, ∃ x, h !! p = Some x ∧ tensor_has_shape sh (data x)) ps shs →
  ∃ h' gs, attach_grads ps h = Some h' ∧ NoDup (ps ++ gs)
           ∧ Forall3 (attached h') ps gs shs
           ∧ (∀ g, g ∈ gs → h !! g = None)
           ∧ (∀ l, l ∉ ps → l ∉ gs → h' !! l = h !! l).
Proof.
  induction ps as [|p ps IH]; intros shs h Hnd HF.
  - inversion HF; subst. exists h, []. split; [done|]. split; [constructor|].
    split; [constructor|]. split; [|done]. intros g Hg.
    by apply elem_of_nil in Hg.
  - inversion HF as [|? sh ? shs' (x & Hp & Hsh) HF']; subst.
    apply NoDup_cons in Hnd as [Hp_ps Hnd].
    cbn [attach_grads]. unfold attach_grad. rewrite Hp. cbn [mbind option_bind].
    set (g := fresh (dom h)).
    assert (h !! g = None) as Hg.
    { apply not_elem_of_dom. apply is_fresh. }
    assert (p ≠ g) as Hpg by (intros ->; congruence).
    set (h1 := <[p := _]> (<[g := _]> h)).
    destruct (IH shs' h1 Hnd) as (h' & gs & Ha & Hnd' & HF3 & Hnew & Hframe).
    { eapply Forall2_elem_impl; [exact HF'|].
      intros q sh' Hq (y & Hy & Hshy). exists y. split; [|done].
      unfold h1. rewrite !lookup_insert_ne; [done| |].
      - intros ->. congruence.
      - by intros ->. }
    assert (p ∉ gs) as Hp_gs.
    { intros Hin. specialize (Hnew p Hin). unfold h1 in Hnew.
      by rewrite lookup_insert_eq in Hnew. }
    assert (g ∉ gs) as Hg_gs.
    { intros Hin. specialize (Hnew g Hin). unfold h1 in Hnew.
      rewrite lookup_insert_ne, lookup_insert_eq in Hnew; done. }
    assert (g ∉ ps) as Hg_ps.
    { intros Hin. apply list_elem_of_lookup in Hin as [i Hi].
      destruct (Forall2_lookup_l _ _ _ i g HF' Hi) as (? & _ & y & Hy & _).
      congruence. }
    apply NoDup_app in Hnd' as (_ & Hdisj & Hgs).
    exists h', (g :: gs). split; [done|]. split; [|split; [|split]].
    + cbn [app]. apply NoDup_cons. split.
      * intros Hin. apply elem_of_app in Hin as [Hin|Hin]; [done|].
        apply elem_of_cons in Hin as [?|?]; done.
      * apply NoDup_app. split; [done|]. split.
        -- intros q Hq Hq'. apply elem_of_cons in Hq' as [->|Hq']; [done|].
           by apply (Hdisj q).
        -- by apply NoDup_cons.
    + constructor; [|done].
      exists (data x), (tensor_zeros_like (data x)), None.
      rewrite !Hframe by done. unfold h1.
      rewrite lookup_insert_eq, lookup_insert_ne, lookup_insert_eq by done.
      repeat split; try done.
      eapply tensor_has_shape_transfer; [exact Hsh|].
      apply tensor_shape_zeros_like.
    + intros g' Hg'. apply elem_of_cons in Hg' as [->|Hg']; [done|].
      pose proof (Hnew g' Hg') as Hn. unfold h1 in Hn.
      rewrite !lookup_insert_ne in Hn; [done| |].
      * by intros ->.
      * by intros ->.
    + intros l Hl Hl'. apply not_elem_of_cons in Hl as [? ?], Hl' as [? ?].
      rewrite Hframe by done. unfold h1. by rewrite !lookup_insert_ne.
Qed.

(** The notebook's gradient cell establishes [wf_store]. *)
Lemma attach_grads_wf E h :
  NoDup (params E) →
  Forall2 (λ p sh, ∃ x, h !! p = Some x ∧ tensor_has_shape sh (data x))
    (params E) param_shapes →
  ∃ h' gs, attach_grads (params E) h = Some h' ∧ wf_store E gs h'.
Proof.
  intros Hnd HF.
  destruct (attach_grads_attached _ _ h Hnd HF) as (h' & gs & Ha & Hnd' & HF3 & _).
  exists h', gs. by repeat split.
Qed.

Lemma evaluate_accuracy_adds data_iterator net m r m' :
  evaluate_accuracy data_iterator net m = Some (r, m') →
  ∃ c n, ∀ m2,
    evaluate_accuracy data_iterator net m2
    = Some (metric_get (mkAccuracy (sum_metric m2 + c) (num_inst m2 + n)),
            mkAccuracy (sum_metric m2 + c) (num_inst m2 + n)).
Proof.
  unfold evaluate_accuracy. intros H.
  apply bind_Some in H as (m1 & Hm1 & _).
  destruct (evaluate_batches_adds _ _ _ _ Hm1) as (c & n & Hadd).
  exists c, n. intros m2. by rewrite Hadd.
Qed.

Lemma shape2_replicate n m (x : num) : shape2 n m (replicate n (replicate m x)).
Proof.
  split; [apply length_replicate|].
  apply Forall_replicate, length_replicate.
Qed.

End NotebookFacts.

(** * Exact real arithmetic *)

Section Reals.
Local Open Scope R_scope.

Lemma R_zero : (zero : R) = 0.
Proof. unfold zero. simpl. unfold Q2R. simpl. lra. Qed.

Lemma R_one : (one : R) = 1.
Proof. unfold one. simpl. unfold Q2R. simpl. lra. Qed.

Lemma vsum_nil : vsum ([] : list R) = 0.
Proof. apply R_zero. Qed.

Lemma vsum_cons (x : R) (v : list R) : vsum (x :: v) = x + vsum v.
Proof. done. Qed.

Lemma vsum_map_div (s : R) (v : list R) :
  vsum (map (λ x, x / s) v) = vsum v / s.
Proof.
  induction v as [|x v IH]; simpl map.
  - rewrite vsum_nil. unfold Rdiv. lra.
  - rewrite !vsum_cons, IH. unfold Rdiv. lra.
Qed.

Lemma vsum_map_mult (c : R) (f : R → R) (v : list R) :
  vsum (map (λ x, f x * c) v) = vsum (map f v) * c.
Proof.
  induction v as [|x v IH]; simpl map.
  - rewrite vsum_nil. lra.
  - rewrite !vsum_cons, IH. lra.
Qed.

Lemma vsum_pos (v : list R) :
  v ≠ [] → Forall (λ x, 0 < x) v → 0 < vsum v.
Proof.
  intros Hne HF. induction HF as [|x v Hx HF IH]; [done|].
  rewrite vsum_cons. destruct v as [|y v].
  - rewrite vsum_nil. lra.
  - assert (0 < vsum (y :: v)) by (by apply IH). lra.
Qed.

Lemma softmax_row_positive (M : R) (row : list R) :
  Forall (λ x, 0 < x) (map (λ x, exp (x - M)) row).
Proof. apply Forall_map, Forall_forall. intros x _. simpl. apply exp_pos. Qed.

(** What the notebook's text says of [softmax] holds when nothing is
    rounded and nothing underflows: in exact real arithmetic the entries
    of every row are non-negative and sum to 1 (an array has no dimension
    of size zero, so a row has an entry). *)
Lemma softmax_rows_sum_to_one_exact n m (y_linear : list (list R)) :
  shape2 n m y_linear → (0 < m)%nat →
  Forall (λ row, Forall (λ p, 0 <= p) row ∧ vsum row = 1) (softmax y_linear).
Proof.
  intros [_ Hrows] Hm. rewrite softmax_rows.
  apply Forall_map. eapply Forall_impl; [exact Hrows|].
  intros row Hrow. simpl in Hrow. cbv zeta.
  simpl fexp. simpl fsub. simpl fdiv.
  set (e := map (λ x, exp (x - nd_max y_linear)) row).
  assert (0 < vsum e) as Hs.
  { apply vsum_pos; [|apply softmax_row_positive].
    unfold e. destruct row; [simpl in Hrow; lia|done]. }
  split.
  - apply Forall_map. eapply Forall_impl; [apply softmax_row_positive|].
    intros v Hv. simpl in *. apply Rlt_le, Rdiv_lt_0_compat; done.
  - rewrite vsum_map_div. field. lra.
Qed.

(** C7, in exact real arithmetic (nothing is rounded, nothing overflows or
    underflows): subtracting the largest entry of the whole array before
    the exponential does not change the result, [softmax] is [exp] over its
    row sums. *)
Theorem softmax_shift_invariant (y_linear : list (list R)) :
  softmax y_linear = normalize y_linear.
Proof.
  rewrite softmax_rows. unfold normalize. apply map_ext. intros row. cbv zeta.
  rewrite map_map. apply map_ext_in. intros x Hx.
  simpl fexp. simpl fsub. simpl fdiv.
  set (M := nd_max y_linear).
  assert (∀ z, exp (z - M) = exp z * exp (- M)) as Hexp.
  { intros z. by rewrite <- exp_plus. }
  rewrite (map_ext _ _ Hexp), vsum_map_mult, Hexp.
  assert (0 < vsum (map exp row)) as Hs.
  { apply vsum_pos.
    - destruct row; [by destruct Hx|done].
    - apply Forall_map, Forall_forall. intros z _. simpl. apply exp_pos. }
  pose proof (exp_pos (- M)). field. lra.
Qed.

Lemma map_zip_with {A B C D} (f : C → D) (g : A → B → C) l k :
  map f (zip_with g l k) = zip_with (λ a b, f (g a b)) l k.
Proof.
  revert k. induction l as [|a l IH]; intros [|b k]; simpl; try done.
  by rewrite IH.
Qed.

Lemma zip_with_map_l {A B C D} (g : C → B → D) (h : A → C) l k :
  zip_with g (map h l) k = zip_with (λ a b, g (h a) b) l k.
Proof.
  revert k. induction l as [|a l IH]; intros [|b k]; simpl; try done.
  by rewrite IH.
Qed.

Lemma zip_with_map_r {A B C D} (g : A → C → D) (h : B → C) l k :
  zip_with g l (map h k) = zip_with (λ a b, g a (h b)) l k.
Proof.
  revert k. induction l as [|a l IH]; intros [|b k]; simpl; try done.
  by rewrite IH.
Qed.

Lemma zip_with_ext_Forall {A B C} (f g : A → B → C) (P : A → Prop)
    (Q : B → Prop) l k :
  Forall P l → Forall Q k → (∀ a b, P a → Q b → f a b = g a b) →
  zip_with f l k = zip_with g l k.
Proof.
  intros Hl Hk Hfg. revert k Hk.
  induction Hl as [|a l Ha Hl IH]; intros k Hk; [done|].
  destruct Hk as [|b k Hb Hk]; [done|]. simpl. rewrite Hfg by done.
  f_equal. by apply IH.
Qed.

Lemma one_hot_row_picks (prow : list R) : ∀ s l,
  vsum (zip_with (λ a p, a * ln p)
          (map (λ j, if j =? l then one else zero) (seq s (length prow))) prow)
  = if bool_decide (s ≤ l < s + length prow)%nat
    then ln (nth (l - s) prow 0) else 0.
Proof.
  induction prow as [|p prow IH]; intros s l.
  - cbn [length seq map zip_with]. rewrite vsum_nil.
    by rewrite bool_decide_eq_false_2 by lia.
  - cbn [length seq map zip_with]. rewrite vsum_cons, IH, R_one, R_zero.
    destruct (Nat.eqb_spec s l) as [->|Hne].
    + rewrite bool_decide_eq_false_2 by lia.
      rewrite bool_decide_eq_true_2 by lia.
      rewrite Nat.sub_diag. simpl. lra.
    + destruct (decide (S s ≤ l < S s + length prow)%nat) as [Hin|Hout].
      * rewrite !bool_decide_eq_true_2 by lia.
        replace (l - s)%nat with (S (l - S s)) by lia. simpl. lra.
      * rewrite !bool_decide_eq_false_2 by lia. lra.
Qed.

(** C3. For predictions with positive entries and labels of the same
    shape, [cross_entropy] returns one number for each row, minus the sum
    over the classes of [y * log(yhat)]; for one-hot labels that is minus
    the logarithm of the probability predicted for the true class. *)
Theorem cross_entropy_negative_log_likelihood n m (yhat y : list (list R)) :
  shape2 n m yhat → shape2 n m y → Forall (Forall (λ p, 0 < p)) yhat →
  cross_entropy yhat y
  = Some (zip_with (λ yrow prow, - vsum (zip_with (λ a p, a * ln p) yrow prow))
            y yhat)
  ∧ (∀ loss, cross_entropy yhat y = Some loss → length loss = n)
  ∧ ∀ label, y = nd_one_hot label m → Forall (λ l, (l < m)%nat) label →
      cross_entropy yhat y
      = Some (zip_with (λ l prow, - ln (nth l prow 0)) label yhat).
Proof.
  intros Hyhat Hy _.
  assert (cross_entropy yhat y
          = Some (zip_with
                    (λ yrow prow, - vsum (zip_with (λ a p, a * ln p) yrow prow))
                    y yhat)) as Hce.
  { unfold cross_entropy, nd_mul, same_shape, nd_log, nd_sum_rows.
    rewrite bool_decide_eq_true_2.
    - simpl. f_equal. rewrite map_map, zip_with_map_r, map_zip_with.
      apply zip_with_ext; [|done..]. intros yrow prow.
      by rewrite zip_with_map_r.
    - rewrite map_map. apply shape2_alt in Hy as ->.
      apply shape2_alt in Hyhat as <-. apply map_ext. intros row.
      by rewrite length_map. }
  split; [done|]. split.
  - intros loss. rewrite Hce. intros [= <-]. rewrite length_zip_with.
    destruct Hy as [-> _], Hyhat as [-> _]. lia.
  - intros label -> Hlabel. rewrite Hce. f_equal.
    unfold nd_one_hot. rewrite zip_with_map_l.
    apply (zip_with_ext_Forall _ _ (λ l, (l < m)%nat) (λ row, length row = m));
      [done|apply Hyhat|].
    intros l prow Hl <-. rewrite one_hot_row_picks.
    rewrite bool_decide_eq_true_2 by lia. by rewrite Nat.sub_0_r.
Qed.

Lemma np_mean_single (x : R) : np_mean [x] = x.
Proof.
  unfold np_mean, of_nat. rewrite vsum_cons, vsum_nil. simpl.
  unfold Q2R. simpl. field.
Qed.

Lemma moving_loss_update_R i (ml : R) loss ml' :
  moving_loss_update i ml loss = Some ml' →
  ∃ x, loss !! 0%nat = Some x
       ∧ ml' = if i =? 0 then x else 99 / 100 * ml + 1 / 100 * x.
Proof.
  unfold moving_loss_update. intros H.
  apply bind_Some in H as (x & Hx & H). exists x. split; [done|].
  rewrite np_mean_single in H. destruct (i =? 0); injection H as <-; [done|].
  simpl. unfold Q2R. simpl. lra.
Qed.

Lemma moving_losses_from losses : ∀ i (ml ml' : R),
  i ≠ 0%nat → moving_losses i ml losses = Some ml' →
  ∃ firsts, Forall2 (λ loss x, loss !! 0%nat = Some x) losses firsts
            ∧ ml' = foldl (λ a x, 99 / 100 * a + 1 / 100 * x) ml firsts.
Proof.
  induction losses as [|loss rest IH]; intros i ml ml' Hi H.
  - injection H as <-. exists []. by split; [constructor|].
  - cbn [moving_losses] in H. apply bind_Some in H as (ml1 & H1 & H).
    apply moving_loss_update_R in H1 as (x & Hx & ->).
    destruct (Nat.eqb_spec i 0) as [|_]; [done|].
    destruct (IH (S i) _ _ (Nat.neq_succ_0 i) H) as (firsts & HF & ->).
    exists (x :: firsts). by split; [constructor|].
Qed.

(** C9. The loss printed for an epoch is a moving average over the first
    entry of each batch's loss vector: it is set to that entry at batch 0
    of the epoch, whatever it was before, and becomes
    0.99 * previous + 0.01 * current at every later batch. *)
Theorem printed_loss_moving_average E autograd train_data test_data e
    (st st' : State R) :
  train_epoch E autograd train_data test_data e st = Some st' →
  ∃ losses firsts,
    batch_losses E autograd train_data (store st) = Some losses
    ∧ Forall2 (λ loss x, loss !! 0%nat = Some x) losses firsts
    ∧ line_loss <$> last (printed st') = Some (moving_loss st')
    ∧ moving_loss st'
      = match firsts with
        | [] => moving_loss st
        | x0 :: rest => foldl (λ a x, 99 / 100 * a + 1 / 100 * x) x0 rest
        end.
Proof.
  intros He.
  destruct (train_epoch_printed _ _ _ _ _ _ _ He) as (h & r2 & r1 & Ht & Hp).
  destruct (train_batches_moving_loss _ _ _ _ _ _ _ _ Ht) as (losses & Hl & Hml).
  assert (line_loss <$> last (printed st') = Some (moving_loss st')) as Hlast.
  { rewrite Hp, last_snoc. done. }
  destruct losses as [|loss rest].
  - exists [], []. injection Hml as Hml.
    split; [done|]. split; [constructor|]. by split.
  - cbn [moving_losses] in Hml. apply bind_Some in Hml as (ml1 & H1 & Hml).
    apply moving_loss_update_R in H1 as (x0 & Hx0 & ->). simpl in Hml.
    destruct (moving_losses_from rest 1%nat _ _ (Nat.neq_succ_0 0) Hml)
      as (firsts & HF & Hfold).
    exists (loss :: rest), (x0 :: firsts).
    split; [done|]. split; [by constructor|]. by split.
Qed.

(** ** The small run *)

Lemma example_params_shaped : params_shaped example_params.
Proof.
  unfold params_shaped, param_shapes, grad_tensors, example_params.
  cbn [W1 b1 W2 b2 W3 b3 tensor_has_shape].
  repeat (apply Forall2_cons; split;
          [first [apply shape2_replicate | apply length_replicate]|]).
  constructor.
Qed.

Lemma example_store_wf : wf_store example_env example_grads example_store.
Proof.
  pose proof example_params_shaped as Hsh.
  apply params_shaped_inv in Hsh as (H1 & H2 & H3 & H4 & H5 & H6).
  split.
  - apply (bool_decide_unpack _). by vm_compute.
  - unfold params, param_shapes, example_env, example_grads.
    cbn [ref_W1 ref_b1 ref_W2 ref_b2 ref_W3 ref_b3].
    repeat (apply Forall3_cons;
            [eexists _, _, _; split; [reflexivity|];
             split; [eassumption|]; split; [reflexivity|eassumption]|]).
    constructor.
Qed.

Lemma example_batch_wf : wf_batch example_batch.
Proof.
  exists 1%nat. split; [lia|]. split; [|done].
  unfold example_batch. cbn [batch_data]. by rewrite length_replicate.
Qed.

Lemma net_two_hidden_layers_witness :
  net example_params (replicate 2 (replicate 784 0))
  = Some (net_formula example_params (replicate 2 (replicate 784 0)))
  ∧ shape2 2 10 (net_formula example_params (replicate 2 (replicate 784 0))).
Proof.
  apply (net_two_hidden_layers example_params _ 2).
  - apply example_params_shaped.
  - apply shape2_replicate.
Defined.

Lemma cross_entropy_negative_log_likelihood_witness :
  cross_entropy [[1 / 2; 1 / 2]] (nd_one_hot [1%nat] 2)
  = Some [- ln (1 / 2)].
Proof.
  destruct (cross_entropy_negative_log_likelihood 1 2
              [[1 / 2; 1 / 2]] (nd_one_hot [1%nat] 2)) as (_ & _ & H).
  - split; [reflexivity|]. repeat constructor.
  - split; [reflexivity|]. repeat constructor.
  - repeat constructor; lra.
  - apply (H [1%nat]); [reflexivity|]. repeat constructor.
Defined.

Lemma tiny_store_has_grad : has_grad tiny_store 1 (Vec [1]) 2 (Vec [1]).
Proof. exists None. by repeat split. Qed.

Lemma SGD_step_distinct_witness :
  ∃ h', SGD [1%positive] 1 tiny_store = Some h'
        ∧ h' !! 1%positive = Some (mkND (Vec [1 - 1 * 1]) (Some 2%positive))
        ∧ h' !! 2%positive = tiny_store !! 2%positive.
Proof.
  destruct (SGD_step_distinct [1%positive] 1 tiny_store) as (h' & HS & Hnew & Hold).
  - apply NoDup_singleton.
  - intros p Hp. apply list_elem_of_singleton in Hp as ->.
    exists (Vec [1]), 2%positive, (Vec [1]). split; [apply tiny_store_has_grad|].
    by intros Hin%list_elem_of_singleton.
  - exists h'. split; [done|]. split.
    + apply (Hnew 1%positive (Vec [1]) 2%positive (Vec [1]));
        [by left|apply tiny_store_has_grad].
    + apply Hold. by intros Hin%list_elem_of_singleton.
Defined.

Lemma SGD_in_place_witness :
  ∃ h', SGD [1%positive; 1%positive] 1 tiny_store = Some h'
        ∧ dom h' = dom tiny_store.
Proof.
  destruct (SGD_in_place [1%positive; 1%positive] 1 tiny_store)
    as (h' & HS & Hdom & _).
  - intros p Hp. exists (Vec [1]), 2%positive, (Vec [1]).
    assert (p = 1%positive) as ->.
    { apply elem_of_cons in Hp as [->|Hp]; [done|].
      by apply list_elem_of_singleton in Hp. }
    apply tiny_store_has_grad.
  - by exists h'.
Defined.

(** With the parameter listed twice the update is applied twice: the
    parameter ends at 1 - 1*1 - 1*1, not at 1 - 1*1. *)
Lemma SGD_repeated_parameter :
  (∀ p, p ∈ [1%positive; 1%positive] →
        ∃ v g gv, has_grad tiny_store p v g gv)
  ∧ ∃ h', SGD [1%positive; 1%positive] 1 tiny_store = Some h'
          ∧ h' !! 1%positive
            = Some (mkND (Vec [1 - 1 * 1 - 1 * (1 : R)]) (Some 2%positive))
          ∧ h' !! 1%positive
            ≠ Some (mkND (tensor_minus (Vec [1]) (tensor_scale 1 (Vec [1])))
                      (Some 2%positive)).
Proof.
  split.
  { intros p Hp. exists (Vec [1]), 2%positive, (Vec [1]).
    assert (p = 1%positive) as ->.
    { apply elem_of_cons in Hp as [->|Hp]; [done|].
      by apply list_elem_of_singleton in Hp. }
    apply tiny_store_has_grad. }
  eexists. split; [|split].
  - cbn [SGD].
    rewrite (SGD_update_Some 1 1%positive tiny_store
               (mkND (Vec [1]) (Some 2%positive)) 2%positive (mkND (Vec [1]) None));
      [|done..].
    cbn [mbind option_bind].
    erewrite (SGD_update_Some 1 1%positive _ _ 2%positive (mkND (Vec [1]) None));
      [|apply lookup_insert_eq|done|by rewrite lookup_insert_ne|done].
    cbn [mbind option_bind]. reflexivity.
  - rewrite lookup_insert_eq. reflexivity.
  - rewrite lookup_insert_eq. simpl. intros [= H]. lra.
Qed.

Lemma training_loop_never_stops_witness :
  ∃ st', training_loop example_env example_autograd [example_batch]
           [example_batch] epochs example_state = Some st'
         ∧ map line_epoch (printed st') = seq 0 epochs
         ∧ num_inst (metric st') = 20%nat.
Proof.
  destruct (training_loop_never_stops example_env example_grads example_autograd
              [example_batch] [example_batch] epochs example_state)
    as (st' & Hrun & _ & _ & Hlines & Hcount).
  - by intros ps X Y Hps.
  - apply example_store_wf.
  - repeat constructor. apply example_batch_wf.
  - repeat constructor. apply example_batch_wf.
  - exists st'. split; [done|]. split; [exact Hlines|exact Hcount].
Defined.

Lemma printed_loss_moving_average_witness :
  ∃ st', train_epoch example_env example_autograd [example_batch]
           [example_batch] 0 example_state = Some st'
         ∧ ∃ loss x0, batch_losses example_env example_autograd [example_batch]
                        example_store = Some [loss]
                      ∧ loss !! 0%nat = Some x0
                      ∧ line_loss <$> last (printed st') = Some x0.
Proof.
  destruct (train_epoch_wf example_env example_grads example_autograd
              [example_batch] [example_batch] 0 example_state)
    as (st' & He & _).
  - by intros ps X Y Hps.
  - apply example_store_wf.
  - repeat constructor. apply example_batch_wf.
  - repeat constructor. apply example_batch_wf.
  - exists st'. split; [exact He|].
    destruct (printed_loss_moving_average _ _ _ _ _ _ _ He)
      as (losses & firsts & Hl & HF & Hlast & Hml).
    assert (length losses = 1%nat) as Hlen.
    { cbn [batch_losses] in Hl.
      apply bind_Some in Hl as (l & _ & Hl).
      apply bind_Some in Hl as (h & _ & Hl). by injection Hl as <-. }
    destruct losses as [|loss [|? ?]]; [discriminate Hlen| |discriminate Hlen].
    inversion HF as [|? x0 ? rest Hx0 Hrest]; subst.
    inversion Hrest; subst. exists loss, x0.
    split; [done|]. split; [done|]. by rewrite Hlast, Hml.
Defined.

Lemma argmax_0_1 : argmax [0; 1] = 1%nat.
Proof.
  unfold argmax. cbn [foldl]. simpl fgtb.
  destruct (Rgt_dec 1 0) as [|Hn]; [done|lra].
Qed.

Lemma always_one_pass (label : nat) (m : Accuracy) :
  evaluate_accuracy [mkBatch (replicate 784 0) [label]] always_one m
  = Some (metric_get
            (mkAccuracy (sum_metric m + (if decide (1%nat = label) then 1 else 0))
               (num_inst m + 1)),
          mkAccuracy (sum_metric m + (if decide (1%nat = label) then 1 else 0))
            (num_inst m + 1)).
Proof.
  unfold evaluate_accuracy. cbn [evaluate_batches batch_data batch_label].
  destruct (reshape_rows_shaped 1 784 (replicate 784 (0 : R))) as [-> _];
    [done|by rewrite length_replicate|].
  cbn [mbind option_bind chunks always_one map].
  unfold metric_update. cbn [map length]. rewrite argmax_0_1.
  cbn [Nat.eqb mbind option_bind]. unfold hits. cbn [zip zip_with filter].
  unfold filter. cbn [list_filter fst snd]. by destruct (decide_rel eq 1%nat label).
Qed.



End Reals.

(** * Infinities and NaN *)

Section SpecialValues.
Local Open Scope R_scope.

Lemma X_zero : (zero : xreal) = Fin 0.
Proof. unfold zero. simpl. f_equal. unfold Q2R. simpl. lra. Qed.

Lemma xexp_underflow (x : R) : x < -104 → xexp (Fin x) = Fin 0.
Proof.
  intros Hx. unfold xexp. destruct (Rlt_dec 89 x); [lra|].
  destruct (Rlt_dec x (-104)); [done|lra].
Qed.

Lemma xexp_overflow (x : R) : 89 < x → xexp (Fin x) = PInf.
Proof. intros Hx. unfold xexp. destruct (Rlt_dec 89 x); [done|lra]. Qed.

Lemma xexp_in_range (x : R) : -104 <= x <= 89 → xexp (Fin x) = Fin (exp x).
Proof.
  intros Hx. unfold xexp. destruct (Rlt_dec 89 x); [lra|].
  destruct (Rlt_dec x (-104)); [lra|done].
Qed.

Lemma xdiv_zero_zero (x y : R) : x = 0 → y = 0 → xdiv (Fin x) (Fin y) = NaN.
Proof.
  intros -> ->. unfold xdiv, xsigned. destruct (Req_dec_T 0 0); [|done].
  destruct (Rlt_dec 0 0); [lra|done].
Qed.

Lemma xdiv_finite (x y : R) : y ≠ 0 → xdiv (Fin x) (Fin y) = Fin (x / y).
Proof. intros Hy. unfold xdiv. by destruct (Req_dec_T y 0). Qed.

Lemma far_apart_max : nd_max far_apart = Fin 200.
Proof.
  unfold nd_max, far_apart. cbn [concat app foldl]. simpl fmax. cbn [xmax].
  f_equal. rewrite (Rmax_left 0 0) by lra. rewrite (Rmax_right 0 200) by lra.
  apply Rmax_left. lra.
Qed.

(** The rows of [far_apart] under [softmax]: the exponentials of the first
    row underflow to 0, their sum is 0, and 0 / 0 is NaN. *)
Lemma softmax_far_apart :
  softmax far_apart = [[NaN; NaN]; [Fin (1 / 2); Fin (1 / 2)]].
Proof.
  rewrite softmax_rows, far_apart_max. unfold far_apart. cbn [map].
  cbn [fsub fexp fdiv X_scalar]. unfold xsub. cbn [xneg xadd].
  rewrite !(xexp_underflow (0 + - (200))) by lra.
  rewrite !(xexp_in_range (200 + - (200))) by lra.
  replace (200 + - (200)) with 0 by lra. rewrite exp_0.
  unfold vsum. cbn [foldr]. rewrite X_zero. cbn [fadd X_scalar xadd].
  rewrite (xdiv_zero_zero 0 (0 + (0 + 0))) by lra.
  rewrite (xdiv_finite 1 (1 + (1 + 0))) by lra.
  by replace (1 / (1 + (1 + 0))) with (1 / 2) by field.
Qed.

(** The rows of [far_apart] under the unshifted normalisation: here it is
    the second row whose exponentials overflow, and inf / inf is NaN. *)
Lemma normalize_far_apart :
  normalize far_apart = [[Fin (1 / 2); Fin (1 / 2)]; [NaN; NaN]].
Proof.
  unfold normalize, far_apart. cbn [map]. cbn [fexp fdiv X_scalar].
  rewrite (xexp_in_range 0) by lra. rewrite (xexp_overflow 200) by lra.
  rewrite exp_0. unfold vsum. cbn [foldr]. rewrite X_zero.
  cbn [fadd X_scalar xadd]. rewrite (xdiv_finite 1 (1 + (1 + 0))) by lra.
  cbn [xdiv]. by replace (1 / (1 + (1 + 0))) with (1 / 2) by field.
Qed.

(** C2. On scores that lie far apart [softmax] does not return a probability
    distribution in every row: the row [0, 0] next to the row [200, 200]
    comes out as [NaN, NaN], whose entries are not non-negative and do not
    sum to 1. *)
Theorem softmax_row_of_nan :
  softmax far_apart = [[NaN; NaN]; [Fin (1 / 2); Fin (1 / 2)]]
  ∧ ¬ Forall (λ row, Forall xnonneg row ∧ vsum row = Fin 1) (softmax far_apart).
Proof.
  split; [apply softmax_far_apart|]. rewrite softmax_far_apart.
  intros H. apply Forall_cons in H as [[H _] _].
  by apply Forall_cons in H as [H _].
Qed.

(** The shifted and the unshifted normalisation differ on [far_apart]: each
    returns a row of NaN where the other returns [0.5, 0.5]. *)
Lemma softmax_shift_changes_result :
  softmax far_apart = [[NaN; NaN]; [Fin (1 / 2); Fin (1 / 2)]]
  ∧ normalize far_apart = [[Fin (1 / 2); Fin (1 / 2)]; [NaN; NaN]]
  ∧ softmax far_apart ≠ normalize far_apart.
Proof.
  split; [apply softmax_far_apart|]. split; [apply normalize_far_apart|].
  rewrite softmax_far_apart, normalize_far_apart. discriminate.
Qed.

Lemma xmax_zero_idempotent (a : xreal) : xmax (xmax a (Fin 0)) (Fin 0) = xmax a (Fin 0).
Proof.
  destruct a as [x| | |]; cbn [xmax]; try done.
  - f_equal. apply Rmax_left. apply Rmax_r.
  - f_equal. apply Rmax_left. lra.
Qed.

Lemma xmax_zero_nonneg (a : xreal) :
  (a = NaN ∧ xmax a (Fin 0) = NaN) ∨ (a ≠ NaN ∧ xnonneg (xmax a (Fin 0))).
Proof.
  destruct a as [x| | |]; cbn [xmax xnonneg]; [right|right|right|left];
    (split; [done|]); first [apply Rmax_r | lra | done].
Qed.

Lemma Forall2_map_r_same {A B} (P : A → B → Prop) (f : A → B) l :
  (∀ a, P a (f a)) → Forall2 P l (map f l).
Proof. intros HP. induction l as [|a l IH]; simpl; by constructor. Qed.

(** With a NaN entry in its argument [relu] returns a NaN entry, which is
    not a non-negative number. *)
Lemma relu_keeps_nan :
  relu nan_and_negative = [[NaN; Fin 0]]
  ∧ ¬ Forall (Forall xnonneg) (relu nan_and_negative).
Proof.
  assert (relu nan_and_negative = [[NaN; Fin 0]]) as Hrelu.
  { rewrite relu_entries, X_zero. unfold nan_and_negative. cbn [map].
    simpl fmax. cbn [xmax]. by rewrite (Rmax_right (-1) 0) by lra. }
  split; [done|]. rewrite Hrelu. intros H.
  apply Forall_cons in H as [H _]. by apply Forall_cons in H as [H _].
Qed.

(** C10, with infinities and NaN among the entries: [relu] takes the
    maximum of every entry with zero; it keeps the shape and applying it
    twice is applying it once; an entry that is NaN stays NaN, and every
    other entry of [relu X] is a non-negative number. *)
Theorem relu_nonneg_unless_nan (X : list (list xreal)) :
  relu X = nd_maximum X (nd_zeros_like X)
  ∧ relu X = map (map (λ x, xmax x (Fin 0))) X
  ∧ map length (relu X) = map length X
  ∧ relu (relu X) = relu X
  ∧ Forall2 (Forall2 (λ x y, (x = NaN ∧ y = NaN) ∨ (x ≠ NaN ∧ xnonneg y)))
      X (relu X).
Proof.
  assert (∀ Y : list (list xreal), relu Y = map (map (λ x, xmax x (Fin 0))) Y)
    as Hrelu.
  { intros Y. rewrite relu_entries. by rewrite X_zero. }
  split; [done|]. split; [apply Hrelu|]. split; [apply relu_shape|]. split.
  - rewrite !Hrelu, map_map. apply map_ext. intros row.
    rewrite map_map. apply map_ext. intros x. apply xmax_zero_idempotent.
  - rewrite Hrelu. apply Forall2_map_r_same. intros row.
    apply Forall2_map_r_same. intros x. apply xmax_zero_nonneg.
Qed.

End SpecialValues.

(** * Further properties of the notebooks' code *)

Section MoreFacts.
Context {num : Type} `{!Scalar num}.
Implicit Types (h : gmap positive (NDArray num)) (t u gv : tensor num).

(** ** Reshaping a batch *)

Lemma concat_chunks k w (buf : list num) :
  length buf = k * w → concat (chunks k w buf) = buf.
Proof.
  revert buf. induction k as [|k IH]; intros buf Hlen; cbn [chunks concat].
  - destruct buf; [done|simpl in Hlen; lia].
  - rewrite IH; [apply take_drop|]. rewrite length_drop. lia.
Qed.

(** [x.reshape((-1, w))] is refused exactly when the number of entries is
    no multiple of [w]; otherwise the rows have [w] entries each and,
    read one after the other, give the buffer back. *)
Theorem reshape_rows_round_trip w (buf : list num) :
  w ≠ 0 →
  (reshape_rows w buf = None ↔ length buf mod w ≠ 0)
  ∧ ∀ X, reshape_rows w buf = Some X →
         shape2 (length buf / w) w X ∧ concat X = buf.
Proof.
  intros Hw. unfold reshape_rows.
  destruct (Nat.eqb_spec (length buf mod w) 0) as [Hmod|Hmod].
  - split; [split; [done|by intros []]|]. intros X [= <-].
    assert (length buf = length buf / w * w) as Hlen.
    { pose proof (Nat.div_mod_eq (length buf) w). lia. }
    split; [by apply chunks_shape|by apply concat_chunks].
  - split; [done|]. by intros X.
Qed.

(** ** When [net] is defined *)

(** With parameters of the notebook's shapes, [net] returns a result
    exactly for the batches whose rows all have 784 entries; any other
    batch is refused by the first product. *)
Theorem net_defined_iff (ps : Params num) X :
  params_shaped ps →
  is_Some (net ps X) ↔ Forall (λ x, length x = 784) X.
Proof.
  intros Hps. split.
  - intros [Y HY]. unfold net in HY. apply bind_Some in HY as (d1 & Hd & _).
    unfold nd_dot in Hd.
    apply params_shaped_inv in Hps as ([HW _] & _). rewrite HW in Hd.
    destruct (forallb _ X) eqn:Hall; [|done].
    rewrite forallb_forall in Hall. apply Forall_forall. intros x Hx.
    apply Nat.eqb_eq, Hall. by apply list_elem_of_In.
  - intros HX. destruct (net_shaped ps X (length X) Hps) as [-> _]; [by split|done].
Qed.

(** ** [SGD] without the gradient cell *)

Lemma SGD_update_same_objects lr param h h' :
  SGD_update lr param h = Some h' → same_objects h h'.
Proof.
  unfold SGD_update, set_slice, tensor_sub. intros Hup.
  apply bind_Some in Hup as (x & Hx & Hup).
  apply bind_Some in Hup as (g & Hg & Hup).
  apply bind_Some in Hup as (y & Hy & Hup).
  apply bind_Some in Hup as (v & Hv & Hup).
  rewrite Hx in Hup. cbn [mbind option_bind] in Hup.
  destruct (tensor_same_shape (data x) v) eqn:Hs; [|done].
  injection Hup as <-. apply (same_objects_insert h param x); [done..|].
  simpl. symmetry. by apply tensor_same_shape_spec.
Qed.

(** If an element of [params] has no gradient buffer ([attach_grad] was
    not called on it), [SGD] raises, wherever the element stands in the
    list. *)
Theorem SGD_raises_without_grad (ps : list positive) lr h param x :
  param ∈ ps → h !! param = Some x → grad x = None → SGD ps lr h = None.
Proof.
  revert h x. induction ps as [|q ps IH]; intros h x Hin Hx Hg.
  - by apply elem_of_nil in Hin.
  - cbn [SGD]. destruct (SGD_update lr q h) as [h1|] eqn:Hup; [|done].
    cbn [mbind option_bind].
    apply elem_of_cons in Hin as [->|Hin].
    + unfold SGD_update in Hup. rewrite Hx in Hup. cbn in Hup.
      by rewrite Hg in Hup.
    + pose proof (SGD_update_same_objects _ _ _ _ Hup param) as Hsame.
      rewrite Hx in Hsame. inversion Hsame as [? x1 [Hg1 _]|]; subst.
      apply (IH h1 x1); [done..|congruence].
Qed.

End MoreFacts.

(** Instances of the statements above. *)

Lemma reshape_rows_round_trip_witness :
  (reshape_rows 2 [1%R; 0%R; 0%R] = None ↔ length [1%R; 0%R; 0%R] mod 2 ≠ 0)
  ∧ ∀ X, reshape_rows 2 [1%R; 0%R; 0%R] = Some X →
         shape2 (length [1%R; 0%R; 0%R] / 2) 2 X ∧ concat X = [1%R; 0%R; 0%R].
Proof. apply (reshape_rows_round_trip 2 [1%R; 0%R; 0%R]). lia. Defined.


Lemma net_defined_iff_witness :
  is_Some (net example_params [[0%R]]) ↔ Forall (λ x, length x = 784) [[0%R]].
Proof. apply net_defined_iff, example_params_shaped. Defined.


Lemma SGD_raises_without_grad_witness :
  SGD [2%positive; 1%positive] (1%R)
    (<[1%positive := mkND (Vec [1%R]) None]> tiny_store) = None.
Proof.
  apply (SGD_raises_without_grad _ _ _ 1%positive (mkND (Vec [1%R]) None)).
  - right. by left.
  - apply lookup_insert_eq.
  - done.
Defined.


Section MoreStore.
Context {num : Type} `{!Scalar num}.
Implicit Types (h : gmap positive (NDArray num)) (t u gv : tensor num).

(** ** The gradient cell *)

(** [for param in params: param.attach_grad()] on distinct arrays
    returns; every parameter keeps its buffer and gets a gradient buffer,
    a new object holding zeros of the parameter's shape; the new objects
    are pairwise distinct, and every other object is as it was. *)
Theorem attach_grads_fresh_zero_buffers (ps : list positive) : ∀ h,
  NoDup ps → (∀ p, p ∈ ps → is_Some (h !! p)) →
  ∃ h' gs, attach_grads ps h = Some h'
    ∧ NoDup (ps ++ gs)
    ∧ (∀ g, g ∈ gs → h !! g = None)
    ∧ Forall2 (λ p g, ∃ x, h !! p = Some x
                 ∧ h' !! p = Some (mkND (data x) (Some g))
                 ∧ h' !! g = Some (mkND (tensor_zeros_like (data x)) None))
        ps gs
    ∧ (∀ l, l ∉ ps → l ∉ gs → h' !! l = h !! l).
Proof.
  induction ps as [|p ps IH]; intros h Hnd Halloc.
  - exists h, []. split; [done|]. split; [constructor|].
    split; [by intros g Hg%elem_of_nil|]. by split; [constructor|].
  - apply NoDup_cons in Hnd as [Hp_ps Hnd].
    destruct (Halloc p) as [x Hp]; [by left|].
    cbn [attach_grads]. unfold attach_grad. rewrite Hp. cbn [mbind option_bind].
    set (g := fresh (dom h)).
    assert (h !! g = None) as Hg by apply not_elem_of_dom, is_fresh.
    assert (p ≠ g) as Hpg by (intros ->; congruence).
    assert (g ∉ ps) as Hg_ps.
    { intros Hin. destruct (Halloc g) as [? ?]; [by right|congruence]. }
    set (h1 := <[p := _]> (<[g := _]> h)).
    assert (∀ q, q ∈ ps → h1 !! q = h !! q) as Hsame.
    { intros q Hq. unfold h1. rewrite !lookup_insert_ne; [done| |].
      - by intros ->.
      - by intros ->. }
    destruct (IH h1 Hnd) as (h' & gs & Ha & Hnd' & Hnew & HF & Hframe).
    { intros q Hq. rewrite Hsame by done. apply Halloc. by right. }
    assert (p ∉ gs) as Hp_gs.
    { intros Hin. specialize (Hnew p Hin). unfold h1 in Hnew.
      by rewrite lookup_insert_eq in Hnew. }
    assert (g ∉ gs) as Hg_gs.
    { intros Hin. specialize (Hnew g Hin). unfold h1 in Hnew.
      rewrite lookup_insert_ne, lookup_insert_eq in Hnew; done. }
    apply NoDup_app in Hnd' as (_ & Hdisj & Hgs).
    exists h', (g :: gs). split; [done|]. split; [|split; [|split]].
    + cbn [app]. apply NoDup_cons. split.
      * intros Hin. apply elem_of_app in Hin as [Hin|Hin]; [done|].
        apply elem_of_cons in Hin as [?|?]; done.
      * apply NoDup_app. split; [done|]. split.
        -- intros q Hq Hq'. apply elem_of_cons in Hq' as [->|Hq']; [done|].
           by apply (Hdisj q).
        -- by apply NoDup_cons.
    + intros g' Hg'. apply elem_of_cons in Hg' as [->|Hg']; [done|].
      pose proof (Hnew g' Hg') as Hn. unfold h1 in Hn.
      rewrite !lookup_insert_ne in Hn; [done| |].
      * by intros ->.
      * by intros ->.
    + constructor.
      * exists x. split; [done|]. rewrite !Hframe by done. unfold h1.
        by rewrite lookup_insert_eq, lookup_insert_ne, lookup_insert_eq.
      * eapply Forall2_elem_impl; [exact HF|].
        intros q g' Hq (y & Hy & Hq' & Hg'). exists y.
        by rewrite <- (Hsame q Hq).
    + intros l Hl Hl'. apply not_elem_of_cons in Hl as [? ?], Hl' as [? ?].
      rewrite Hframe by done. unfold h1. by rewrite !lookup_insert_ne.
Qed.

(** ** One parameter update *)

Lemma write_grads_values ps gs shs ts h :
  NoDup (ps ++ gs) → Forall3 (attached h) ps gs shs →
  Forall2 tensor_has_shape shs ts →
  ∃ h1, write_grads (zip ps ts) h = Some h1
        ∧ Forall3 (attached h1) ps gs shs
        ∧ (∀ l, l ∉ gs → h1 !! l = h !! l)
        ∧ ∀ i g t, gs !! i = Some g → ts !! i = Some t →
                   ∃ gg, h1 !! g = Some (mkND t gg).
Proof.
  revert gs shs ts h. induction ps as [|p ps IH]; intros gs shs ts h Hnd HF Hts.
  - inversion HF; subst. exists h. split; [done|]. split; [constructor|].
    split; [done|]. intros i g t Hg. by rewrite lookup_nil in Hg.
  - inversion HF as [|? g sh ? gs' shs' HP HF']; subst.
    inversion Hts as [|? t ? ts' Ht Hts']; subst. cbn [zip zip_with write_grads].
    destruct HP as (v & gv & gg & Hp & Hv & Hg & Hgv).
    unfold write_grad. cbn [fst snd]. rewrite Hp. cbn [mbind option_bind grad].
    rewrite Hg. cbn [mbind option_bind grad].
    set (h1 := <[g := mkND t gg]> h).
    cbn [app] in Hnd. apply NoDup_cons in Hnd as [Hp_fresh Hnd].
    apply NoDup_app in Hnd as (Hps & Hdisj & Hgs).
    apply NoDup_cons in Hgs as [Hg_fresh Hgs].
    assert (p ≠ g) as Hpg.
    { intros ->. apply Hp_fresh. apply elem_of_app. right. by left. }
    assert (p ∉ gs') as Hp_gs.
    { intros Hin. apply Hp_fresh. apply elem_of_app. right. by right. }
    destruct (IH gs' shs' ts' h1) as (h' & Hw & HF'' & Hframe & Hval); [| |done|].
    { apply NoDup_app. split; [done|]. split; [|done].
      intros l Hl Hl'. apply (Hdisj l Hl). by right. }
    { eapply Forall3_elem_impl; [exact HF'|].
      intros a b c Ha Hb (va & gva & gga & Ha1 & Ha2 & Ha3 & Ha4).
      exists va, gva, gga. unfold h1.
      rewrite !lookup_insert_ne; [done| |].
      - by intros ->.
      - intros ->. apply (Hdisj a Ha). by left. }
    exists h'. split; [done|]. split; [|split].
    + constructor; [|done]. exists v, t, gg.
      rewrite !Hframe by done. unfold h1.
      rewrite lookup_insert_ne by done. by rewrite lookup_insert_eq.
    + intros l Hl. apply not_elem_of_cons in Hl as [Hlg Hl].
      rewrite Hframe by done. unfold h1. by rewrite lookup_insert_ne.
    + intros [|i] g' t' Hg' Ht'; simpl in Hg', Ht'.
      * injection Hg' as <-. injection Ht' as <-. exists gg.
        rewrite Hframe by done. unfold h1. by rewrite lookup_insert_eq.
      * by apply (Hval i).
Qed.

(** The update of one batch, [loss.backward()] followed by
    [SGD(params, .01)]: it returns, every parameter then holds its previous
    value minus 0.01 times the gradient that the engine delivered for it,
    its gradient buffer holds that gradient, and no other object has
    changed. *)
Theorem update_step_descends E gs (grads : Params num) h :
  wf_store E gs h → params_shaped grads →
  ∃ h', update_step E grads h = Some h'
    ∧ wf_store E gs h'
    ∧ (∀ i p g t,
         params E !! i = Some p → gs !! i = Some g →
         grad_tensors grads !! i = Some t →
         ∃ v gg, h !! p = Some (mkND v (Some g))
                 ∧ h' !! p = Some (mkND (tensor_minus v
                                           (tensor_scale (lit (1 # 100)) t))
                                     (Some g))
                 ∧ h' !! g = Some (mkND t gg))
    ∧ ∀ l, l ∉ params E → l ∉ gs → h' !! l = h !! l.
Proof.
  intros Hwf Hgr.
  destruct (update_step_wf E gs grads h Hwf Hgr) as (h' & Hup & Hwf').
  exists h'. split; [done|]. split; [done|].
  destruct Hwf as [Hnd HF]. unfold update_step, backward in Hup.
  destruct (write_grads_values _ _ _ _ h Hnd HF Hgr)
    as (h1 & Hw & HF1 & Hframe1 & Hval).
  rewrite Hw in Hup. cbn [mbind option_bind] in Hup.
  pose proof Hnd as Hnd0. apply NoDup_app in Hnd0 as (Hps & Hdisj & Hgs).
  destruct (SGD_distinct (params E) (lit (1 # 100)) h1 Hps)
    as (h2 & HS & Hnew & Hold).
  { intros p Hp. destruct (Forall3_elem_l _ _ _ _ p HF1 Hp)
      as (g & sh & Hg & v & gv & gg & H1 & H2 & H3 & H4).
    exists v, g, gv. split.
    - exists gg. repeat split; [done..|].
      apply tensor_same_shape_spec. by eapply tensor_has_shape_same.
    - intros Hin. by apply (Hdisj g Hin). }
  rewrite HS in Hup. injection Hup as <-. split.
  - intros i p g t Hp Hg Ht.
    destruct (Forall3_lookup_l _ _ _ _ i p HF Hp)
      as (g' & sh & Hg' & Hsh & v & gv & gg & H1 & H2 & H3 & H4).
    rewrite Hg in Hg'. injection Hg' as <-.
    destruct (Hval i g t Hg Ht) as (gg' & Hgt).
    assert (p ∈ params E) as Hp_in by (by eapply list_elem_of_lookup_2).
    assert (g ∈ gs) as Hg_in by (by eapply list_elem_of_lookup_2).
    assert (g ∉ params E) as Hg_ps by (intros Hin; by apply (Hdisj g Hin)).
    assert (p ∉ gs) as Hp_gs by (intros Hin; by apply (Hdisj p Hp_in)).
    exists v, gg'. split; [done|]. split.
    + apply Hnew; [done|]. exists gg'. rewrite Hframe1 by done.
      split; [done|]. split; [done|].
      apply tensor_same_shape_spec. eapply tensor_has_shape_same; [exact H2|].
      by eapply Forall2_lookup_lr.
    + by rewrite Hold.
  - intros l Hl Hl'. rewrite Hold by done. by apply Hframe1.
Qed.

End MoreStore.

Lemma attach_grads_fresh_zero_buffers_witness :
  ∃ h' gs, attach_grads [1%positive]
             (<[1%positive := mkND (Vec [1%R]) None]> ∅) = Some h'
           ∧ NoDup ([1%positive] ++ gs).
Proof.
  destruct (attach_grads_fresh_zero_buffers [1%positive]
              (<[1%positive := mkND (Vec [1%R]) None]> ∅))
    as (h' & gs & Ha & Hnd & _).
  - apply NoDup_singleton.
  - intros p Hp%list_elem_of_singleton. subst. by rewrite lookup_insert_eq.
  - by exists h', gs.
Defined.

Lemma update_step_descends_witness :
  ∃ h', update_step example_env example_params example_store = Some h'
        ∧ wf_store example_env example_grads h'.
Proof.
  destruct (update_step_descends example_env example_grads example_params
              example_store) as (h' & Hup & Hwf & _).
  - apply example_store_wf.
  - apply example_params_shaped.
  - exists h'. split; [exact Hup|exact Hwf].
Defined.

Section MoreArrays.
Context {num : Type} `{!Scalar num}.
Implicit Types (h : gmap positive (NDArray num)) (t u gv : tensor num).

(** ** The NDArray tutorial *)

(** [x.size] is the product of the components of [x.shape]. *)
Theorem nd_size_is_product n m (X : list (list num)) :
  shape2 n m X → nd_size X = n * m.
Proof.
  unfold nd_size. revert n. induction X as [|row X IH]; intros n [Hn HF].
  - simpl in *. lia.
  - apply Forall_cons in HF as [Hrow HF]. simpl in Hn.
    cbn [concat]. rewrite length_app, (IH (length X)) by done. lia.
Qed.

(** [x + y] for two arrays of shape (n, m) is an array of that shape whose
    entries are the sums of the entries of [x] and [y]. *)
Theorem nd_plus_entries n m (X Y : list (list num)) :
  shape2 n m X → shape2 n m Y →
  ∃ Z, nd_plus X Y = Some Z ∧ shape2 n m Z
       ∧ ∀ i j x y, nd_entry i j X = Some x → nd_entry i j Y = Some y →
                    nd_entry i j Z = Some (fadd x y).
Proof.
  intros HX HY. unfold nd_plus, same_shape.
  assert (map length X = map length Y) as Hs.
  { apply shape2_alt in HX, HY. by rewrite HX, HY. }
  rewrite bool_decide_eq_true_2 by done. eexists. split; [done|]. split.
  - eapply shape2_transfer; [|exact HX]. by apply zip_with_rows_shape.
  - intros i j x y Hx Hy. unfold nd_entry in *.
    apply bind_Some in Hx as (rx & Hrx & Hx).
    apply bind_Some in Hy as (ry & Hry & Hy).
    rewrite lookup_zip_with, Hrx. cbn [mbind option_bind]. rewrite Hry.
    cbn [mbind option_bind]. rewrite lookup_zip_with, Hx. cbn [mbind option_bind].
    by rewrite Hy.
Qed.

(** [x[i, j] = v] is accepted exactly when [x] has an entry [(i, j)]; it
    then keeps the shape, makes that entry [v] and changes no other. *)
Theorem nd_set_item_spec i j v (X : list (list num)) :
  (is_Some (nd_set_item i j v X) ↔ is_Some (nd_entry i j X))
  ∧ ∀ X', nd_set_item i j v X = Some X' →
      (∀ n m, shape2 n m X → shape2 n m X')
      ∧ nd_entry i j X' = Some v
      ∧ ∀ i' j', (i', j') ≠ (i, j) → nd_entry i' j' X' = nd_entry i' j' X.
Proof.
  unfold nd_set_item, nd_entry. destruct (X !! i) as [row|] eqn:Hrow.
  2:{ split; [|done]. split; by intros []. }
  cbn [mbind option_bind]. pose proof (lookup_lt_Some _ _ _ Hrow) as Hi.
  destruct (Nat.ltb_spec j (length row)) as [Hj|Hj].
  - split; [split; intros _; [by apply lookup_lt_is_Some|done]|].
    intros X' [= <-]. split; [|split].
    + intros n m [Hn HF]. split; [by rewrite length_insert|].
      apply Forall_insert; [done|]. rewrite length_insert.
      rewrite Forall_forall in HF. apply HF. by eapply list_elem_of_lookup_2.
    + rewrite list_lookup_insert_eq by done. cbn [mbind option_bind].
      by apply list_lookup_insert_eq.
    + intros i' j' Hne. destruct (decide (i' = i)) as [->|Hi'].
      * rewrite list_lookup_insert_eq, Hrow by done. cbn [mbind option_bind].
        apply list_lookup_insert_ne. congruence.
      * by rewrite list_lookup_insert_ne.
  - split; [|done]. split; [by intros []|].
    intros Hsome. apply lookup_lt_is_Some in Hsome. lia.
Qed.

Lemma block_row_lookup c0 c1 v (row : list num) j :
  imap (λ j x, if (c0 <=? j) && (j <? c1) then v else x) row !! j
  = (λ x, if bool_decide (c0 ≤ j < c1) then v else x) <$> row !! j.
Proof.
  rewrite list_lookup_imap. destruct (row !! j) as [x|]; [|done]. simpl.
  destruct (Nat.leb_spec c0 j), (Nat.ltb_spec j c1); simpl;
    by rewrite ?bool_decide_eq_true_2, ?bool_decide_eq_false_2 by lia.
Qed.

(** [x[r0:r1, c0:c1] = v] with ranges inside an array of shape (n, m): the
    shape stays, the entries of the block become [v], every other entry
    keeps its value. *)
Theorem nd_set_block_spec r0 r1 c0 c1 v n m (X : list (list num)) :
  shape2 n m X → r0 < r1 ≤ n → c0 < c1 ≤ m →
  ∃ X', nd_set_block r0 r1 c0 c1 v X = Some X' ∧ shape2 n m X'
        ∧ ∀ i j x, nd_entry i j X = Some x →
            nd_entry i j X'
            = Some (if bool_decide (r0 ≤ i < r1 ∧ c0 ≤ j < c1) then v else x).
Proof.
  intros [Hn HF] Hr Hc. unfold nd_set_block.
  assert (ncols X = m) as Hm.
  { destruct X as [|row X]; [simpl in Hn; lia|].
    by apply Forall_cons in HF as [? _]. }
  rewrite Hn, Hm.
  destruct (Nat.ltb_spec r0 r1); [|lia]. destruct (Nat.leb_spec r1 n); [|lia].
  destruct (Nat.ltb_spec c0 c1); [|lia]. destruct (Nat.leb_spec c1 m); [|lia].
  cbn [andb]. eexists. split; [done|]. split.
  - split; [by rewrite length_imap|]. apply Forall_forall. intros row' Hrow'.
    apply list_elem_of_lookup in Hrow' as [i Hi].
    rewrite list_lookup_imap in Hi. destruct (X !! i) as [row|] eqn:Hrow; [|done].
    injection Hi as <-. rewrite Forall_forall in HF.
    assert (length row = m) as Hlen by (by eapply HF, list_elem_of_lookup_2).
    destruct ((r0 <=? i) && (i <? r1)); [by rewrite length_imap|done].
  - intros i j x Hx. unfold nd_entry in *.
    apply bind_Some in Hx as (row & Hrow & Hx).
    rewrite list_lookup_imap, Hrow. cbn [fmap option_fmap option_map mbind option_bind].
    destruct (Nat.leb_spec r0 i), (Nat.ltb_spec i r1); cbn [andb].
    + rewrite block_row_lookup, Hx. simpl.
      destruct (decide (c0 ≤ j < c1)).
      * by rewrite !bool_decide_eq_true_2 by lia.
      * by rewrite !bool_decide_eq_false_2 by lia.
    + rewrite Hx. by rewrite bool_decide_eq_false_2 by lia.
    + rewrite Hx. by rewrite bool_decide_eq_false_2 by lia.
    + rewrite Hx. by rewrite bool_decide_eq_false_2 by lia.
Qed.

(** [x[:] = v] against [x = v], with a second name [z] for the object of
    [x]: after the slice assignment both names read [v] and the bindings
    are as before; after the plain assignment [x] reads [v] from a new
    object, while [z] and the old object still hold the old value. *)
Theorem slice_assignment_is_not_rebinding (x z : string) r (old : NDArray num) v
    (env : gmap string positive) h :
  env !! x = Some r → env !! z = Some r → x ≠ z → h !! r = Some old →
  tensor_same_shape (data old) v = true →
  (∃ h', assign_slice x v (env, h) = Some (env, h')
         ∧ read_name x (env, h') = Some v ∧ read_name z (env, h') = Some v
         ∧ dom h' = dom h)
  ∧ read_name x (assign_name x v (env, h)) = Some v
  ∧ read_name z (assign_name x v (env, h)) = Some (data old)
  ∧ (assign_name x v (env, h)).2 !! r = Some old
  ∧ (assign_name x v (env, h)).1 !! x ≠ Some r.
Proof.
  intros Hx Hz Hxz Hr Hs. split.
  - unfold assign_slice, set_slice, read_name. cbn [fst snd].
    rewrite Hx. cbn [mbind option_bind]. rewrite Hr. cbn [mbind option_bind].
    rewrite Hs. eexists. split; [done|]. cbn [fst snd]. rewrite Hz.
    cbn [mbind option_bind]. rewrite lookup_insert_eq. cbn [mbind option_bind data].
    split; [done|]. split; [done|]. apply set_eq. intros l.
    rewrite dom_insert, elem_of_union, elem_of_singleton, !elem_of_dom.
    split; [intros [->|?]; by eauto|by right].
  - unfold assign_name, read_name. cbn [fst snd].
    set (r' := fresh (dom h)).
    assert (r' ≠ r) as Hfresh.
    { intros Heq. assert (r' ∉ dom h) as Hn by apply is_fresh.
      apply Hn. rewrite Heq. apply elem_of_dom. by eauto. }
    rewrite lookup_insert_eq. cbn [mbind option_bind].
    rewrite lookup_insert_eq. cbn [mbind option_bind data].
    rewrite lookup_insert_ne by done. rewrite Hz. cbn [mbind option_bind].
    rewrite lookup_insert_ne by done. rewrite Hr. cbn [mbind option_bind].
    split; [done|]. split; [done|]. split; [done|]. congruence.
Qed.

(** ** The counters of the metric *)

Lemma hits_le (pred_label label : list nat) : hits pred_label label ≤ length pred_label.
Proof.
  unfold hits. etrans; [apply length_filter|].
  rewrite length_zip_with. lia.
Qed.

Lemma evaluate_batches_counts net batches : ∀ m m',
  evaluate_batches net batches m = Some m' →
  sum_metric m ≤ num_inst m →
  sum_metric m' ≤ num_inst m' ∧ num_inst m ≤ num_inst m'.
Proof.
  induction batches as [|batch rest IH]; intros m m' Hm Hle.
  - injection Hm as <-. lia.
  - cbn [evaluate_batches] in Hm.
    apply bind_Some in Hm as (data & Hdata & Hm).
    apply bind_Some in Hm as (output & Hout & Hm).
    apply bind_Some in Hm as (m1 & Hm1 & Hm).
    unfold metric_update in Hm1.
    destruct (length (batch_label batch) =? length (map argmax output)); [|done].
    injection Hm1 as <-.
    pose proof (hits_le (map argmax output) (batch_label batch)).
    destruct (IH _ _ Hm) as [Hle' Hmono]; cbn [sum_metric num_inst] in *; lia.
Qed.

End MoreArrays.

Lemma nd_size_is_product_witness : nd_size (nd_ones 6 4 : list (list R)) = 24.
Proof. apply (nd_size_is_product 6 4), shape2_replicate. Defined.

Lemma nd_plus_entries_witness :
  ∃ Z, nd_plus (nd_ones 6 4 : list (list R)) (nd_ones 6 4) = Some Z
       ∧ shape2 6 4 Z.
Proof.
  destruct (nd_plus_entries 6 4 (nd_ones 6 4 : list (list R)) (nd_ones 6 4))
    as (Z & HZ & Hshape & _); [apply shape2_replicate..|].
  exists Z. split; [exact HZ|exact Hshape].
Defined.

Lemma nd_set_item_spec_witness :
  nd_entry 3 2 (<[3 := <[2 := 9%R]> (replicate 4 1%R)]> (nd_ones 6 4)) = Some 9%R.
Proof.
  destruct (nd_set_item_spec 3 2 9%R (replicate 6 (replicate 4 1%R))) as [_ H].
  destruct (H (<[3 := <[2 := 9%R]> (replicate 4 1%R)]> (replicate 6 (replicate 4 1%R))))
    as (_ & Hread & _); [reflexivity|].
  exact Hread.
Defined.

Lemma nd_set_block_spec_witness :
  ∃ X', nd_set_block 2 4 1 3 5%R (replicate 6 (replicate 4 1%R)) = Some X'
        ∧ shape2 6 4 X'.
Proof.
  destruct (nd_set_block_spec 2 4 1 3 5%R 6 4 (replicate 6 (replicate 4 1%R)))
    as (X' & HX' & Hshape & _); [apply shape2_replicate|lia|lia|].
  exists X'. split; [exact HX'|exact Hshape].
Defined.

Lemma slice_assignment_is_not_rebinding_witness :
  read_name "z" (assign_name "x" (Vec [2%R])
                   ({["x" := 1%positive; "z" := 1%positive]}, tiny_store))
  = Some (Vec [1%R]).
Proof.
  destruct (slice_assignment_is_not_rebinding "x" "z" 1%positive
              (mkND (Vec [1%R]) (Some 2%positive)) (Vec [2%R])
              {["x" := 1%positive; "z" := 1%positive]} tiny_store)
    as (_ & _ & Hz & _); [reflexivity|reflexivity|done|reflexivity|reflexivity|].
  exact Hz.
Defined.

Section MoreReals.
Local Open Scope R_scope.

(** ** [softmax] *)

Lemma normalize_shift (y_linear : list (list R)) (c : R) :
  normalize (nd_sub_scalar y_linear c) = normalize y_linear.
Proof.
  unfold normalize, nd_sub_scalar. rewrite map_map. apply map_ext. intros row.
  rewrite map_map. apply map_ext_in. intros x Hx.
  simpl fexp. simpl fsub. simpl fdiv. rewrite map_map.
  assert (∀ z, exp (z - c) = exp z * exp (- c)) as Hexp.
  { intros z. by rewrite <- exp_plus. }
  rewrite (map_ext _ _ Hexp), vsum_map_mult, Hexp.
  assert (0 < vsum (map exp row)) as Hs.
  { apply vsum_pos.
    - destruct row; [by destruct Hx|done].
    - apply Forall_map, Forall_forall. intros z _. simpl. apply exp_pos. }
  pose proof (exp_pos (- c)). field. lra.
Qed.

Lemma softmax_normalize (y_linear : list (list R)) :
  softmax y_linear = normalize y_linear.
Proof.
  rewrite <- (normalize_shift y_linear (nd_max y_linear)).
  rewrite softmax_rows. unfold normalize, nd_sub_scalar.
  rewrite map_map. apply map_ext. intros row. cbv zeta.
  by rewrite !map_map.
Qed.

Lemma map_replicate {A B} (f : A → B) n (x : A) :
  map f (replicate n x) = replicate n (f x).
Proof. induction n as [|n IH]; simpl; [done|]. by rewrite IH. Qed.

Lemma vsum_replicate (m : nat) (x : R) : vsum (replicate m x) = INR m * x.
Proof.
  induction m as [|m IH]; cbn [replicate].
  - rewrite vsum_nil. simpl. lra.
  - rewrite vsum_cons, IH, S_INR. lra.
Qed.

(** On an array whose entries are all equal, [softmax] returns the uniform
    distribution in every row. *)
Theorem softmax_of_constant_is_uniform n m (c : R) :
  (0 < m)%nat →
  softmax (replicate n (replicate m c)) = replicate n (replicate m (1 / INR m)).
Proof.
  intros Hm. rewrite softmax_normalize. unfold normalize.
  rewrite map_replicate. f_equal. rewrite !map_replicate. f_equal.
  simpl fexp. simpl fdiv. rewrite vsum_replicate.
  assert (0 < INR m) by (by apply lt_0_INR). pose proof (exp_pos c).
  field. lra.
Qed.

(** ** [relu] *)

(** [relu] returns its argument unchanged exactly when no entry of the
    argument is negative. *)
Theorem relu_identity_iff (X : list (list R)) :
  relu X = X ↔ Forall (Forall (λ x, 0 <= x)) X.
Proof.
  rewrite relu_entries, R_zero. split.
  - intros HX. rewrite <- HX. apply Forall_map, Forall_forall. intros row _.
    simpl. apply Forall_map, Forall_forall. intros x _. simpl. apply Rmax_r.
  - induction 1 as [|row X Hrow HX IH]; [done|]. cbn [map]. rewrite IH.
    f_equal. clear -Hrow. induction Hrow as [|x row Hx Hrow IH]; [done|].
    cbn [map]. rewrite IH. f_equal. by apply Rmax_left.
Qed.

End MoreReals.

Section MoreTraining.
Local Open Scope R_scope.

(** ** The accuracy that is returned *)

Lemma Q2R_of_nat (n : nat) : Q2R (inject_Z (Z.of_nat n)) = INR n.
Proof. unfold Q2R. simpl. rewrite INR_IZR_INZ. field. Qed.

Lemma of_nat_INR (n : nat) : (of_nat n : R) = INR n.
Proof. apply Q2R_of_nat. Qed.

(** When the counters of the metric start with no more hits than samples,
    so they stay, and [evaluate_accuracy] returns NaN exactly when no
    sample has been counted at all, and a number between 0 and 1 otherwise. *)
Theorem accuracy_in_unit_interval (data_iterator : list (Batch R)) net m r m' :
  evaluate_accuracy data_iterator net m = Some (r, m') →
  (sum_metric m ≤ num_inst m)%nat →
  (sum_metric m' ≤ num_inst m')%nat
  ∧ (r = None ↔ num_inst m' = 0%nat)
  ∧ ∀ a, r = Some a → 0 <= a <= 1.
Proof.
  unfold evaluate_accuracy. intros He Hm.
  apply bind_Some in He as (m1 & Hm1 & He). injection He as <- <-.
  destruct (evaluate_batches_counts _ _ _ _ Hm1 Hm) as [Hle _].
  split; [done|]. unfold metric_get.
  destruct (Nat.eqb_spec (num_inst m1) 0) as [Hz|Hnz].
  - split; [done|]. by intros a.
  - split; [split; [done|by intros ?]|]. intros a [= <-].
    rewrite !Q2R_of_nat.
    assert (0 < INR (num_inst m1)) as Hpos by (apply lt_0_INR; lia).
    pose proof (pos_INR (sum_metric m1)) as Hs.
    pose proof (le_INR _ _ Hle) as Hle'.
    split.
    + apply Rmult_le_pos; [done|]. left. by apply Rinv_0_lt_compat.
    + replace 1 with (INR (num_inst m1) / INR (num_inst m1)) by (field; lra).
      unfold Rdiv. apply Rmult_le_compat_r; [|done].
      left. by apply Rinv_0_lt_compat.
Qed.

End MoreTraining.

Lemma accuracy_in_unit_interval_witness :
  ∃ r m', evaluate_accuracy [batch_of_zero] always_one (mkAccuracy 0 0) = Some (r, m')
          ∧ ∀ a, r = Some a → (0 <= a <= 1)%R.
Proof.
  eexists _, _. split; [apply always_one_pass|].
  destruct (accuracy_in_unit_interval [batch_of_zero] always_one (mkAccuracy 0 0)
              _ _ (always_one_pass 0 (mkAccuracy 0 0))) as (_ & _ & H).
  - simpl. lia.
  - exact H.
Defined.

Lemma softmax_of_constant_is_uniform_witness :
  softmax (replicate 2 (replicate 10 0%R)) = replicate 2 (replicate 10 (1 / INR 10)%R).
Proof. apply softmax_of_constant_is_uniform. lia. Defined.
